(** * The compilation driver of ART: compiler/driver/compiler_driver.h

    A shallow embedding of the inline logic of [CompilerDriver]: the
    fingerprint [DedupeHashFunc] of the deduplication sets, the
    [PatchInformation] class hierarchy with its accessors, and the
    tables and lists the driver owns. *)

From Stdlib Require Import ZArith Lia List Strings.Byte Bool.
From stdpp Require Import base option list gmap strings.

Local Open Scope Z_scope.

(** ** Machine integers

    Integers are [Z].  The arithmetic of the hash is the arithmetic of
    [size_t], with the wrap-around of its width written out; the indices
    and offsets of a patch record are stored and returned as they are. *)

Definition wrap (bits x : Z) : Z := x mod 2 ^ bits.

(** [h] is a value of the unsigned type of width [bits]. *)
Definition in_word (bits h : Z) : Prop := 0 <= h < 2 ^ bits.

Definition byte_val (b : byte) : Z := Z.of_N (Byte.to_N b).

#[global] Instance byte_eq_decision : EqDecision byte :=
  fun x y =>
    match Byte.eqb x y as r return Byte.eqb x y = r -> Decision (x = y) with
    | true => fun H => left (byte_dec_bl x y H)
    | false => fun H => right (eqb_false H)
    end eq_refl.

(** ** Fatal checks

    [CHECK(...)] and [LOG(FATAL)] end the process; a call that runs into
    one returns [Fatal] with the message instead of a value. *)

Inductive Checked (A : Type) : Type :=
| Ok (a : A)
| Fatal (msg : string).

Arguments Ok {A} a.
Arguments Fatal {A} msg.

Definition checked_bind {A B : Type} (m : Checked A) (k : A -> Checked B)
  : Checked B :=
  match m with
  | Ok a => k a
  | Fatal msg => Fatal msg
  end.

(** ** DedupeHashFunc *)

Module Hash.

(** A computation that indexes the array under hash: it fails on an index
    outside the array and logs every position it reads. *)
Definition Reads (A : Type) : Type :=
  list byte -> list Z -> option (A * list Z).

Definition ret {A : Type} (a : A) : Reads A :=
  fun _ log => Some (a, log).

Definition bind {A B : Type} (m : Reads A) (k : A -> Reads B) : Reads B :=
  fun array log =>
    match m array log with
    | Some (a, log') => k a array log'
    | None => None
    end.

#[local] Notation "'let*' x ':=' m 'in' k" := (bind m (fun x => k))
  (at level 10, x name, m at level 100, k at level 200).

(** [array.size()] *)
Definition size : Reads Z :=
  fun array log => Some (Z.of_nat (length array), log).

(** [array[i]] *)
Definition at_index (i : Z) : Reads Z :=
  fun array log =>
    if 0 <=? i then
      match array !! Z.to_nat i with
      | Some b => Some (byte_val b, log ++ [i])
      | None => None
      end
    else None.

(** [for (size_t i = lo; n iterations; ++i) hash = body i hash] *)
Fixpoint for_loop (n : nat) (i : Z) (body : Z -> Z -> Reads Z) (hash : Z)
  : Reads Z :=
  match n with
  | O => ret hash
  | S n' => let* h := body i hash in for_loop n' (i + 1) body h
  end.

Section Width.

(** The width of [size_t]. *)
Variable bits : Z.

Definition kSmallArrayThreshold : Z := 16.
Definition kRandomHashCount : Z := 16.

(** [hash = (hash * 16777619) ^ b] *)
Definition fnv_step (hash b : Z) : Z :=
  Z.lxor (wrap bits (hash * 16777619)) b.

(** [hash += hash << s] *)
Definition add_shl (s hash : Z) : Z :=
  wrap bits (hash + wrap bits (Z.shiftl hash s)).

(** [hash ^= hash >> s] *)
Definition xor_shr (s hash : Z) : Z :=
  Z.lxor hash (Z.shiftr hash s).

(** The five closing statements of [operator()]. *)
Definition final_mix (hash : Z) : Z :=
  let hash := add_shl 13 hash in
  let hash := xor_shr 7 hash in
  let hash := add_shl 3 hash in
  let hash := xor_shr 17 hash in
  let hash := add_shl 5 hash in
  hash.

(** [size_t r = i * 1103515245 + 12345] *)
Definition random_r (i : Z) : Z :=
  wrap bits (wrap bits (i * 1103515245) + 12345).

Definition operator_call : Reads Z :=
  let* sz := size in
  let* hash :=
    (if sz <=? kSmallArrayThreshold then
       for_loop (Z.to_nat sz) 0
         (fun i hash => let* b := at_index i in ret (fnv_step hash b))
         (wrap bits 0x811c9dc5)
     else
       let* hash :=
         for_loop 2 0
           (fun i hash =>
              let* b := at_index (wrap bits (i + 6)) in
              ret (fnv_step hash b))
           (wrap bits 0x811c9dc5) in
       for_loop (Z.to_nat (kRandomHashCount - 2)) 2
         (fun i hash =>
            let r := random_r i in
            let* b := at_index (r mod sz) in
            ret (fnv_step hash b))
         hash) in
  ret (final_mix hash).

(** The hash and the positions read, or [None] when an index was out of
    range. *)
Definition DedupeHashFunc (array : list byte) : option (Z * list Z) :=
  operator_call array [].

(** *** Reference definitions the hash is compared with *)

(** The positions [lo], [lo + 1], ... a loop of [n] rounds runs through. *)
Fixpoint zseq (lo : Z) (n : nat) : list Z :=
  match n with
  | O => []
  | S n' => lo :: zseq (lo + 1) n'
  end.

Definition byte_at (array : list byte) (p : Z) : Z :=
  byte_val (nth (Z.to_nat p) array x00).

(** The accumulator after the bytes at [positions] went in, in order. *)
Definition fold_positions (array : list byte) (positions : list Z)
    (hash : Z) : Z :=
  fold_left (fun h p => fnv_step h (byte_at array p)) positions hash.

(** The hash of a small array as the specification words it: start from
    0x811c9dc5, for every byte multiply by 16777619 and xor the byte in,
    then apply the final mixing. *)
Definition hash_every_byte (array : list byte) : Z :=
  final_mix
    (fold_left
       (fun hash b => Z.lxor ((hash * 16777619) mod 2 ^ bits) (byte_val b))
       array 0x811c9dc5).

(** The sixteen positions sampled in an array of [sz] bytes: 6 and 7,
    then [(i * 1103515245 + 12345) % sz] for [i] from 2 to 15, with the
    product and sum taken in [size_t]. *)
Definition sample_positions (sz : Z) : list Z :=
  [6; 7] ++
  map (fun i => random_r i mod sz)
      [2; 3; 4; 5; 6; 7; 8; 9; 10; 11; 12; 13; 14; 15].

(** The same positions with the product and sum taken in the integers. *)
Definition sample_positions_exact (sz : Z) : list Z :=
  [6; 7] ++
  map (fun i => (i * 1103515245 + 12345) mod sz)
      [2; 3; 4; 5; 6; 7; 8; 9; 10; 11; 12; 13; 14; 15].

(** The hash of a large array: the bytes at the sampled positions folded
    in from 0x811c9dc5, then the final mixing. *)
Definition hash_sampled (array : list byte) : Z :=
  final_mix
    (fold_positions array (sample_positions (Z.of_nat (length array)))
       0x811c9dc5).

(** The bytes at the sampled positions of an array, in the order they are
    read. *)
Definition sampled_bytes (array : list byte) : list byte :=
  map (fun p => nth (Z.to_nat p) array x00)
      (sample_positions (Z.of_nat (length array))).

End Width.

End Hash.


(** ** PatchInformation and its subclasses *)

Module Patch.

Section Records.

(** [DexFile] (dex_file.h) and [InvokeType] (invoke_type.h) are declared
    outside this unit and stay abstract.  A [const DexFile*] is [None]
    when it is NULL. *)
Context {DexFile InvokeType : Type}.

Record PatchInformation : Type := mkPatchInformation {
  dex_file_ : option DexFile;
  referrer_class_def_idx_ : Z;
  referrer_method_idx_ : Z;
  literal_offset_ : Z
}.

Record CallPatchInformation : Type := mkCallPatchInformation {
  call_base : PatchInformation;
  referrer_invoke_type_ : InvokeType;
  target_method_idx_ : Z;
  target_invoke_type_ : InvokeType
}.

Record RelativeCallPatchInformation : Type :=
  mkRelativeCallPatchInformation {
  relative_base : CallPatchInformation;
  offset_ : Z
}.

Record TypePatchInformation : Type := mkTypePatchInformation {
  type_base : PatchInformation;
  target_type_idx_ : Z
}.

(** What a [const CallPatchInformation*] points to. *)
Inductive CallObject : Type :=
| PlainCall (c : CallPatchInformation)
| RelativeCall (r : RelativeCallPatchInformation).

(** What a [const PatchInformation*] points to. *)
Inductive PatchObject : Type :=
| BasePatch (p : PatchInformation)
| CallPatch (c : CallObject)
| TypePatch (t : TypePatchInformation).

(** *** Constructors *)

Definition new_PatchInformation (dex_file : option DexFile)
    (referrer_class_def_idx referrer_method_idx literal_offset : Z)
  : Checked PatchInformation :=
  let this := {| dex_file_ := dex_file;
                 referrer_class_def_idx_ := referrer_class_def_idx;
                 referrer_method_idx_ := referrer_method_idx;
                 literal_offset_ := literal_offset |} in
  match dex_file_ this with
  | Some _ => Ok this
  | None => Fatal "Check failed: dex_file_ != NULL"
  end.

Definition new_CallPatchInformation (dex_file : option DexFile)
    (referrer_class_def_idx referrer_method_idx : Z)
    (referrer_invoke_type : InvokeType)
    (target_method_idx : Z) (target_invoke_type : InvokeType)
    (literal_offset : Z)
  : Checked CallPatchInformation :=
  checked_bind
    (new_PatchInformation dex_file referrer_class_def_idx
       referrer_method_idx literal_offset)
    (fun base =>
       Ok {| call_base := base;
             referrer_invoke_type_ := referrer_invoke_type;
             target_method_idx_ := target_method_idx;
             target_invoke_type_ := target_invoke_type |}).

Definition new_RelativeCallPatchInformation (dex_file : option DexFile)
    (referrer_class_def_idx referrer_method_idx : Z)
    (referrer_invoke_type : InvokeType)
    (target_method_idx : Z) (target_invoke_type : InvokeType)
    (literal_offset pc_relative_offset : Z)
  : Checked RelativeCallPatchInformation :=
  checked_bind
    (new_CallPatchInformation dex_file referrer_class_def_idx
       referrer_method_idx referrer_invoke_type target_method_idx
       target_invoke_type literal_offset)
    (fun base =>
       Ok {| relative_base := base; offset_ := pc_relative_offset |}).

Definition new_TypePatchInformation (dex_file : option DexFile)
    (referrer_class_def_idx referrer_method_idx target_type_idx
       literal_offset : Z)
  : Checked TypePatchInformation :=
  checked_bind
    (new_PatchInformation dex_file referrer_class_def_idx
       referrer_method_idx literal_offset)
    (fun base =>
       Ok {| type_base := base; target_type_idx_ := target_type_idx |}).

(** *** Member functions *)

Definition call_of (c : CallObject) : CallPatchInformation :=
  match c with
  | PlainCall c => c
  | RelativeCall r => relative_base r
  end.

Definition base_of (o : PatchObject) : PatchInformation :=
  match o with
  | BasePatch p => p
  | CallPatch c => call_base (call_of c)
  | TypePatch t => type_base t
  end.

(** [*dex_file_]; [None] would be the dereference of NULL. *)
Definition GetDexFile (o : PatchObject) : option DexFile :=
  dex_file_ (base_of o).
Definition GetReferrerClassDefIdx (o : PatchObject) : Z :=
  referrer_class_def_idx_ (base_of o).
Definition GetReferrerMethodIdx (o : PatchObject) : Z :=
  referrer_method_idx_ (base_of o).
Definition GetLiteralOffset (o : PatchObject) : Z :=
  literal_offset_ (base_of o).

Definition IsCall (o : PatchObject) : bool :=
  match o with
  | CallPatch _ => true
  | BasePatch _ | TypePatch _ => false
  end.

Definition IsType (o : PatchObject) : bool :=
  match o with
  | TypePatch _ => true
  | BasePatch _ | CallPatch _ => false
  end.

Definition AsCall (o : PatchObject) : Checked CallObject :=
  match o with
  | CallPatch c => Ok c
  | BasePatch _ | TypePatch _ => Fatal "Unreachable"
  end.

Definition AsType (o : PatchObject) : Checked TypePatchInformation :=
  match o with
  | TypePatch t => Ok t
  | BasePatch _ | CallPatch _ => Fatal "Unreachable"
  end.

Definition GetReferrerInvokeType (c : CallObject) : InvokeType :=
  referrer_invoke_type_ (call_of c).
Definition GetTargetMethodIdx (c : CallObject) : Z :=
  target_method_idx_ (call_of c).
Definition GetTargetInvokeType (c : CallObject) : InvokeType :=
  target_invoke_type_ (call_of c).

Definition IsRelative (c : CallObject) : bool :=
  match c with
  | PlainCall _ => false
  | RelativeCall _ => true
  end.

Definition RelativeOffset (c : CallObject) : Z :=
  match c with
  | PlainCall _ => 0
  | RelativeCall r => offset_ r
  end.

Definition GetTargetTypeIdx (t : TypePatchInformation) : Z :=
  target_type_idx_ t.

End Records.

End Patch.

(** ** The lists of patches the driver owns *)

Module Ledger.

Import Patch.

Section Ledger.

Context {DexFile InvokeType : Type}.

(** [code_to_patch_], [methods_to_patch_] and [classes_to_patch_]. *)
Record PatchLists : Type := mkPatchLists {
  code_to_patch_ : list (@CallObject DexFile InvokeType);
  methods_to_patch_ : list (@CallObject DexFile InvokeType);
  classes_to_patch_ : list (@TypePatchInformation DexFile)
}.

Definition no_patches : PatchLists :=
  {| code_to_patch_ := []; methods_to_patch_ := [];
     classes_to_patch_ := [] |}.

Definition GetCodeToPatch (d : PatchLists) := code_to_patch_ d.
Definition GetMethodsToPatch (d : PatchLists) := methods_to_patch_ d.
Definition GetClassesToPatch (d : PatchLists) := classes_to_patch_ d.

(** Modelled from the spec: the bodies of [AddCodePatch],
    [AddRelativeCodePatch], [AddMethodPatch] and [AddClassPatch] are in
    compiler_driver.cc, which is not part of this unit.  The
    specification (4.1) has each of them append one new, immutable
    record, and the lists keep insertion order; the record is built by
    the constructor of the class whose arguments the operation takes, and
    goes to the list the operation is named after. *)
Definition AddCodePatch (dex_file : option DexFile)
    (referrer_class_def_idx referrer_method_idx : Z)
    (referrer_invoke_type : InvokeType)
    (target_method_idx : Z) (target_invoke_type : InvokeType)
    (literal_offset : Z) (d : PatchLists) : Checked PatchLists :=
  checked_bind
    (new_CallPatchInformation dex_file referrer_class_def_idx
       referrer_method_idx referrer_invoke_type target_method_idx
       target_invoke_type literal_offset)
    (fun c =>
       Ok {| code_to_patch_ := code_to_patch_ d ++ [PlainCall c];
             methods_to_patch_ := methods_to_patch_ d;
             classes_to_patch_ := classes_to_patch_ d |}).

(** Modelled from the spec: the body is in compiler_driver.cc; the record
    is the relative form, which alone takes a displacement, and goes to
    the list of code patches. *)
Definition AddRelativeCodePatch (dex_file : option DexFile)
    (referrer_class_def_idx referrer_method_idx : Z)
    (referrer_invoke_type : InvokeType)
    (target_method_idx : Z) (target_invoke_type : InvokeType)
    (literal_offset pc_relative_offset : Z) (d : PatchLists)
  : Checked PatchLists :=
  checked_bind
    (new_RelativeCallPatchInformation dex_file referrer_class_def_idx
       referrer_method_idx referrer_invoke_type target_method_idx
       target_invoke_type literal_offset pc_relative_offset)
    (fun r =>
       Ok {| code_to_patch_ := code_to_patch_ d ++ [RelativeCall r];
             methods_to_patch_ := methods_to_patch_ d;
             classes_to_patch_ := classes_to_patch_ d |}).

(** Modelled from the spec: the body is in compiler_driver.cc; as
    [AddCodePatch], on the list of method patches. *)
Definition AddMethodPatch (dex_file : option DexFile)
    (referrer_class_def_idx referrer_method_idx : Z)
    (referrer_invoke_type : InvokeType)
    (target_method_idx : Z) (target_invoke_type : InvokeType)
    (literal_offset : Z) (d : PatchLists) : Checked PatchLists :=
  checked_bind
    (new_CallPatchInformation dex_file referrer_class_def_idx
       referrer_method_idx referrer_invoke_type target_method_idx
       target_invoke_type literal_offset)
    (fun c =>
       Ok {| code_to_patch_ := code_to_patch_ d;
             methods_to_patch_ := methods_to_patch_ d ++ [PlainCall c];
             classes_to_patch_ := classes_to_patch_ d |}).

(** Modelled from the spec: the body is in compiler_driver.cc; the record
    is a type patch, on the list of class patches. *)
Definition AddClassPatch (dex_file : option DexFile)
    (referrer_class_def_idx referrer_method_idx target_method_idx
       literal_offset : Z) (d : PatchLists) : Checked PatchLists :=
  checked_bind
    (new_TypePatchInformation dex_file referrer_class_def_idx
       referrer_method_idx target_method_idx literal_offset)
    (fun t =>
       Ok {| code_to_patch_ := code_to_patch_ d;
             methods_to_patch_ := methods_to_patch_ d;
             classes_to_patch_ := classes_to_patch_ d ++ [t] |}).

(** One call of a record operation, with its arguments. *)
Inductive PatchRequest : Type :=
| CodePatch (dex_file : DexFile)
    (referrer_class_def_idx referrer_method_idx : Z)
    (referrer_invoke_type : InvokeType)
    (target_method_idx : Z) (target_invoke_type : InvokeType)
    (literal_offset : Z)
| RelativeCodePatch (dex_file : DexFile)
    (referrer_class_def_idx referrer_method_idx : Z)
    (referrer_invoke_type : InvokeType)
    (target_method_idx : Z) (target_invoke_type : InvokeType)
    (literal_offset pc_relative_offset : Z)
| MethodPatch (dex_file : DexFile)
    (referrer_class_def_idx referrer_method_idx : Z)
    (referrer_invoke_type : InvokeType)
    (target_method_idx : Z) (target_invoke_type : InvokeType)
    (literal_offset : Z)
| ClassPatch (dex_file : DexFile)
    (referrer_class_def_idx referrer_method_idx target_method_idx
       literal_offset : Z).

Definition record (req : PatchRequest) (d : PatchLists)
  : Checked PatchLists :=
  match req with
  | CodePatch f c m ri t ti l => AddCodePatch (Some f) c m ri t ti l d
  | RelativeCodePatch f c m ri t ti l o =>
      AddRelativeCodePatch (Some f) c m ri t ti l o d
  | MethodPatch f c m ri t ti l => AddMethodPatch (Some f) c m ri t ti l d
  | ClassPatch f c m t l => AddClassPatch (Some f) c m t l d
  end.

Fixpoint record_all (reqs : list PatchRequest) (d : PatchLists)
  : Checked PatchLists :=
  match reqs with
  | [] => Ok d
  | req :: reqs' => checked_bind (record req d) (record_all reqs')
  end.

(** The records a sequence of requests asks for, per list. *)
Definition base_record (f : DexFile) (c m l : Z)
  : @PatchInformation DexFile :=
  {| dex_file_ := Some f; referrer_class_def_idx_ := c;
     referrer_method_idx_ := m; literal_offset_ := l |}.

Definition call_record (f : DexFile) (c m : Z) (ri : InvokeType) (t : Z)
    (ti : InvokeType) (l : Z) : @CallPatchInformation DexFile InvokeType :=
  {| call_base := base_record f c m l; referrer_invoke_type_ := ri;
     target_method_idx_ := t; target_invoke_type_ := ti |}.

Definition code_entry (req : PatchRequest)
  : list (@CallObject DexFile InvokeType) :=
  match req with
  | CodePatch f c m ri t ti l => [PlainCall (call_record f c m ri t ti l)]
  | RelativeCodePatch f c m ri t ti l o =>
      [RelativeCall {| relative_base := call_record f c m ri t ti l;
                       offset_ := o |}]
  | MethodPatch _ _ _ _ _ _ _ | ClassPatch _ _ _ _ _ => []
  end.

Definition method_entry (req : PatchRequest)
  : list (@CallObject DexFile InvokeType) :=
  match req with
  | MethodPatch f c m ri t ti l => [PlainCall (call_record f c m ri t ti l)]
  | CodePatch _ _ _ _ _ _ _ | RelativeCodePatch _ _ _ _ _ _ _ _
  | ClassPatch _ _ _ _ _ => []
  end.

Definition class_entry (req : PatchRequest)
  : list (@TypePatchInformation DexFile) :=
  match req with
  | ClassPatch f c m t l =>
      [{| type_base := base_record f c m l; target_type_idx_ := t |}]
  | CodePatch _ _ _ _ _ _ _ | RelativeCodePatch _ _ _ _ _ _ _ _
  | MethodPatch _ _ _ _ _ _ _ => []
  end.

End Ledger.

End Ledger.

(** ** The deduplication sets *)

Module Dedupe.

Section Store.

(** The width of [size_t], which [DedupeHashFunc] computes in. *)
Variable bits : Z.

(** Modelled from the spec: [DedupeSet] (utils/dedupe_set.h) and the
    bodies of [DeduplicateCode], [DeduplicateMappingTable],
    [DeduplicateVMapTable] and [DeduplicateGCMap] (compiler_driver.cc) are
    not part of this unit.  The specification (4.2) gives the contract
    [intern(bytes) -> handle]: if an entry with identical content already
    exists, return the existing handle without allocating a new buffer,
    otherwise insert and return a new handle; entries are found by their
    fingerprint and a full comparison of the content on a fingerprint
    match; entries are never removed; interning is serialised.  A handle
    is the position of the owned buffer in the order of allocation; the
    fingerprint is [DedupeHashFunc]. *)
Record DedupeSet : Type := mkDedupeSet {
  buffers : list (list byte);
  keys : gmap Z (list nat)
}.

Definition empty_set : DedupeSet := {| buffers := []; keys := ∅ |}.

Definition content (s : DedupeSet) (handle : nat) : option (list byte) :=
  buffers s !! handle.

(** Modelled from the spec: the full comparison of the content on a
    fingerprint match (4.2); the first handle of a bucket whose buffer has
    the content [b]. *)
Fixpoint find_equal (owned : list (list byte)) (b : list byte)
    (bucket : list nat) : option nat :=
  match bucket with
  | [] => None
  | k :: bucket' =>
      if bool_decide (owned !! k = Some b) then Some k
      else find_equal owned b bucket'
  end.

(** Modelled from the spec: [DedupeSet::Add] (utils/dedupe_set.h) is not
    part of this unit; this is the [intern] of the specification (4.2).
    [None] stands for a fingerprint that indexed outside the array. *)
Definition Add (b : list byte) (s : DedupeSet) : option (nat * DedupeSet) :=
  match Hash.DedupeHashFunc bits b with
  | None => None
  | Some (h, _) =>
      let bucket := default [] (keys s !! h) in
      match find_equal (buffers s) b bucket with
      | Some k => Some (k, s)
      | None =>
          let k := length (buffers s) in
          Some (k, {| buffers := buffers s ++ [b];
                      keys := <[h := k :: bucket]> (keys s) |})
      end
  end.

(** The four sets of the driver. *)
Record DedupeSets : Type := mkDedupeSets {
  dedupe_code_ : DedupeSet;
  dedupe_mapping_table_ : DedupeSet;
  dedupe_vmap_table_ : DedupeSet;
  dedupe_gc_map_ : DedupeSet
}.

Definition empty_sets : DedupeSets :=
  {| dedupe_code_ := empty_set; dedupe_mapping_table_ := empty_set;
     dedupe_vmap_table_ := empty_set; dedupe_gc_map_ := empty_set |}.

(** Modelled from the spec: the body is in compiler_driver.cc; interning
    into [dedupe_code_], one of the four independent sets (4.2). *)
Definition DeduplicateCode (code : list byte) (d : DedupeSets)
  : option (nat * DedupeSets) :=
  match Add code (dedupe_code_ d) with
  | Some (k, s) =>
      Some (k, {| dedupe_code_ := s;
                  dedupe_mapping_table_ := dedupe_mapping_table_ d;
                  dedupe_vmap_table_ := dedupe_vmap_table_ d;
                  dedupe_gc_map_ := dedupe_gc_map_ d |})
  | None => None
  end.

(** Modelled from the spec: the body is in compiler_driver.cc; interning
    into [dedupe_mapping_table_], one of the four independent sets (4.2). *)
Definition DeduplicateMappingTable (code : list byte) (d : DedupeSets)
  : option (nat * DedupeSets) :=
  match Add code (dedupe_mapping_table_ d) with
  | Some (k, s) =>
      Some (k, {| dedupe_code_ := dedupe_code_ d;
                  dedupe_mapping_table_ := s;
                  dedupe_vmap_table_ := dedupe_vmap_table_ d;
                  dedupe_gc_map_ := dedupe_gc_map_ d |})
  | None => None
  end.

(** Modelled from the spec: the body is in compiler_driver.cc; interning
    into [dedupe_vmap_table_], one of the four independent sets (4.2). *)
Definition DeduplicateVMapTable (code : list byte) (d : DedupeSets)
  : option (nat * DedupeSets) :=
  match Add code (dedupe_vmap_table_ d) with
  | Some (k, s) =>
      Some (k, {| dedupe_code_ := dedupe_code_ d;
                  dedupe_mapping_table_ := dedupe_mapping_table_ d;
                  dedupe_vmap_table_ := s;
                  dedupe_gc_map_ := dedupe_gc_map_ d |})
  | None => None
  end.

(** Modelled from the spec: the body is in compiler_driver.cc; interning
    into [dedupe_gc_map_], one of the four independent sets (4.2). *)
Definition DeduplicateGCMap (code : list byte) (d : DedupeSets)
  : option (nat * DedupeSets) :=
  match Add code (dedupe_gc_map_ d) with
  | Some (k, s) =>
      Some (k, {| dedupe_code_ := dedupe_code_ d;
                  dedupe_mapping_table_ := dedupe_mapping_table_ d;
                  dedupe_vmap_table_ := dedupe_vmap_table_ d;
                  dedupe_gc_map_ := s |})
  | None => None
  end.

(** The kind of blob a call interns, to speak about the four at once. *)
Inductive Kind : Type := Code | MappingTable | VMapTable | GCMap.

#[global] Instance Kind_eq_decision : EqDecision Kind.
Proof. solve_decision. Defined.

Definition set_of (kind : Kind) (d : DedupeSets) : DedupeSet :=
  match kind with
  | Code => dedupe_code_ d
  | MappingTable => dedupe_mapping_table_ d
  | VMapTable => dedupe_vmap_table_ d
  | GCMap => dedupe_gc_map_ d
  end.

Definition Deduplicate (kind : Kind) (code : list byte) (d : DedupeSets)
  : option (nat * DedupeSets) :=
  match kind with
  | Code => DeduplicateCode code d
  | MappingTable => DeduplicateMappingTable code d
  | VMapTable => DeduplicateVMapTable code d
  | GCMap => DeduplicateGCMap code d
  end.

(** Every owned buffer is listed under its fingerprint, and no content is
    owned twice. *)
Definition wf (s : DedupeSet) : Prop :=
  NoDup (buffers s) /\
  forall k b, buffers s !! k = Some b ->
    exists h log, Hash.DedupeHashFunc bits b = Some (h, log)
                  /\ k ∈ default [] (keys s !! h).

Definition wf_sets (d : DedupeSets) : Prop :=
  forall kind, wf (set_of kind d).

(** A run of interning calls, in the order the lock serialises them. *)
Fixpoint Deduplicate_all (calls : list (Kind * list byte)) (d : DedupeSets)
  : option DedupeSets :=
  match calls with
  | [] => Some d
  | (kind, code) :: calls' =>
      match Deduplicate kind code d with
      | Some (_, d') => Deduplicate_all calls' d'
      | None => None
      end
  end.

End Store.

End Dedupe.

(** ** The tables of compiled classes and methods *)

Module Tables.

Section Tables.

(** [DexFile] identifies a module; [CompiledClass] (compiled_class.h) and
    [CompiledMethod] (compiled_method.h) are declared outside this unit.
    A [ClassReference] is a module and a class-def index, a
    [MethodReference] a module and a method index. *)
Context {DexFile : Type} `{Countable DexFile}.
Context {CompiledClass CompiledMethod : Type}.

Record ArtifactTables : Type := mkArtifactTables {
  compiled_classes_ : gmap (DexFile * Z) CompiledClass;
  compiled_methods_ : gmap (DexFile * Z) CompiledMethod
}.

Definition no_artifacts : ArtifactTables :=
  {| compiled_classes_ := ∅; compiled_methods_ := ∅ |}.

(** Modelled from the spec: the bodies of [GetCompiledClass] and
    [GetCompiledMethod], the code that inserts into the tables
    (compiler_driver.cc) and [SafeMap] (safe_map.h) are not part of this
    unit.  The specification (4.3, 3, 7) has [get_*] return the artifact
    stored for a reference or nothing, and [put_*] insert at most once
    per reference: a second insertion for a reference is a contract
    violation that aborts the run. *)
Definition GetCompiledClass (ref : DexFile * Z) (t : ArtifactTables)
  : option CompiledClass :=
  compiled_classes_ t !! ref.

(** Modelled from the spec: the body is in compiler_driver.cc; [get_method]
    of the specification (4.3). *)
Definition GetCompiledMethod (ref : DexFile * Z) (t : ArtifactTables)
  : option CompiledMethod :=
  compiled_methods_ t !! ref.

(** Modelled from the spec: [put_class] of the specification (4.3); a
    second insertion for a reference is fatal (3, 7). *)
Definition put_class (ref : DexFile * Z) (artifact : CompiledClass)
    (t : ArtifactTables) : Checked ArtifactTables :=
  match compiled_classes_ t !! ref with
  | Some _ => Fatal "duplicate compiled class"
  | None =>
      Ok {| compiled_classes_ := <[ref := artifact]> (compiled_classes_ t);
            compiled_methods_ := compiled_methods_ t |}
  end.

(** Modelled from the spec: [put_method] of the specification (4.3); a
    second insertion for a reference is fatal (3, 7). *)
Definition put_method (ref : DexFile * Z) (artifact : CompiledMethod)
    (t : ArtifactTables) : Checked ArtifactTables :=
  match compiled_methods_ t !! ref with
  | Some _ => Fatal "duplicate compiled method"
  | None =>
      Ok {| compiled_classes_ := compiled_classes_ t;
            compiled_methods_ := <[ref := artifact]> (compiled_methods_ t) |}
  end.

(** One insertion of a run. *)
Inductive Insertion : Type :=
| PutClass (ref : DexFile * Z) (artifact : CompiledClass)
| PutMethod (ref : DexFile * Z) (artifact : CompiledMethod).

Definition insert_artifact (i : Insertion) (t : ArtifactTables)
  : Checked ArtifactTables :=
  match i with
  | PutClass ref a => put_class ref a t
  | PutMethod ref a => put_method ref a t
  end.

Fixpoint run (insertions : list Insertion) (t : ArtifactTables)
  : Checked ArtifactTables :=
  match insertions with
  | [] => Ok t
  | i :: rest => checked_bind (insert_artifact i t) (run rest)
  end.

(** The class and the method insertions of a run, in order. *)
Definition class_insertions (l : list Insertion)
  : list ((DexFile * Z) * CompiledClass) :=
  omap (fun i => match i with
                 | PutClass ref a => Some (ref, a)
                 | PutMethod _ _ => None
                 end) l.

Definition method_insertions (l : list Insertion)
  : list ((DexFile * Z) * CompiledMethod) :=
  omap (fun i => match i with
                 | PutMethod ref a => Some (ref, a)
                 | PutClass _ _ => None
                 end) l.

End Tables.

End Tables.

(** ** Resolution of classes along the module list *)

Module Resolve.

(** Modelled from the spec: the body of [Resolve] and [ResolveDexFile]
    (compiler_driver.cc) and the class linker are not part of this unit.
    The specification (4.4, 5) has resolution walk the modules in
    class-loader precedence order, the first module that defines a name
    winning, and has the references of a module resolved by parallel
    tasks that fill a cache; a reference that cannot be resolved stays
    unresolved.  A module is its identity, the descriptors of the classes
    it defines (by class-def index) and the descriptors its code refers
    to; a class definition is a module identity and a class-def index. *)
Record DexModule : Type := mkDexModule {
  module_id : nat;
  class_defs : list string;
  references : list string
}.

Fixpoint FindClassDef (descriptor : string) (defs : list string)
    (class_def_idx : nat) : option nat :=
  match defs with
  | [] => None
  | d :: defs' =>
      if bool_decide (d = descriptor) then Some class_def_idx
      else FindClassDef descriptor defs' (S class_def_idx)
  end.

Definition defines (m : DexModule) (descriptor : string) : option nat :=
  FindClassDef descriptor (class_defs m) 0.

(** Modelled from the spec: the look-up of a name along the module list,
    the first module that defines the name winning (4.4, 5). *)
Fixpoint find_class (descriptor : string) (modules : list DexModule)
  : option (nat * nat) :=
  match modules with
  | [] => None
  | m :: modules' =>
      match defines m descriptor with
      | Some idx => Some (module_id m, idx)
      | None => find_class descriptor modules'
      end
  end.

(** Modelled from the spec: one resolution task, for a reference of a
    module; it fills the cache, and a name no module defines stays
    unresolved (4.4). *)
Definition resolve_task (modules : list DexModule)
    (cache : gmap (nat * string) (nat * nat)) (task : nat * string)
  : gmap (nat * string) (nat * nat) :=
  match find_class task.2 modules with
  | Some def => <[task := def]> cache
  | None => cache
  end.

(** Modelled from the spec: the body is in compiler_driver.cc.
    The tasks of one module, run in the order [schedule] the thread pool
    happened to take them in. *)
Definition ResolveDexFile (modules : list DexModule) (m : DexModule)
    (schedule : list string) (cache : gmap (nat * string) (nat * nat))
  : gmap (nat * string) (nat * nat) :=
  foldl (resolve_task modules) cache (map (pair (module_id m)) schedule).

(** Modelled from the spec: the modules are taken in the order of the
    list, each with the schedule of its tasks (4.4). *)
Fixpoint resolve_each (modules todo : list DexModule)
    (schedules : list (list string))
    (cache : gmap (nat * string) (nat * nat))
  : gmap (nat * string) (nat * nat) :=
  match todo, schedules with
  | m :: todo', schedule :: schedules' =>
      resolve_each modules todo' schedules'
        (ResolveDexFile modules m schedule cache)
  | _, _ => cache
  end.

(** Modelled from the spec: the body is in compiler_driver.cc; the resolve
    phase over all modules, from an empty cache. *)
Definition Resolve (modules : list DexModule)
    (schedules : list (list string)) : gmap (nat * string) (nat * nat) :=
  resolve_each modules modules schedules ∅.

(** What the cache holds for a name is what [find_class] says. *)
Definition cache_sound (modules : list DexModule)
    (cache : gmap (nat * string) (nat * nat)) : Prop :=
  forall key def, cache !! key = Some def ->
                  find_class key.2 modules = Some def.

(** A schedule runs every task of every module once, in any order. *)
Definition schedules_of (modules : list DexModule)
    (schedules : list (list string)) : Prop :=
  Forall2 (fun m schedule => schedule ≡ₚ references m) modules schedules.

End Resolve.

(** ** The image classes *)

Module Image.

(** Modelled from the spec: the body of [IsImageClass] is in
    compiler_driver.cc, which is not part of this unit.  The specification
    (3) has the set of image classes optional and every class eligible
    when it is absent; the declaration of [image_classes_] says the same
    of a NULL set. *)
Definition IsImageClass (image_classes_ : option (gset string))
    (descriptor : string) : bool :=
  match image_classes_ with
  | None => true
  | Some classes => bool_decide (descriptor ∈ classes)
  end.

End Image.

(** ** CompilerTls *)

Module Tls.

Section Tls.

(** What [llvm_info_] points to stays abstract; a [void*] is [None] when it
    is NULL. *)
Context {LLVMInfo : Type}.

Record CompilerTls : Type := mkCompilerTls {
  llvm_info_ : option LLVMInfo
}.

(** [CompilerTls() : llvm_info_(NULL) {}] *)
Definition new_CompilerTls : CompilerTls := {| llvm_info_ := None |}.

Definition GetLLVMInfo (this : CompilerTls) : option LLVMInfo :=
  llvm_info_ this.

Definition SetLLVMInfo (llvm_info : option LLVMInfo) (this : CompilerTls)
  : CompilerTls :=
  {| llvm_info_ := llvm_info |}.

End Tls.

End Tls.

(** ** The inline accessors of CompilerDriver *)

Module Driver.

Section Accessors.

(** The classes of the members are declared outside this unit and stay
    abstract; a pointer is [None] when it is NULL. *)
Context {VerificationResults DexFileToMethodInlinerMap CompilerBackend
         InstructionSet InstructionSetFeatures CompilerContext : Type}.

(** The members of [CompilerDriver] its inline accessors read or write.
    The lists of patches are in [Ledger]; the tables, the deduplication
    sets and the members no inline function touches are left out. *)
Record CompilerDriver : Type := mkCompilerDriver {
  verification_results_ : option VerificationResults;
  method_inliner_map_ : option DexFileToMethodInlinerMap;
  compiler_backend_ : option CompilerBackend;
  instruction_set_ : InstructionSet;
  instruction_set_features_ : InstructionSetFeatures;
  image_ : bool;
  image_classes_ : option (gset string);
  thread_count_ : Z;
  dump_passes_ : bool;
  compiler_context_ : option CompilerContext;
  support_boot_image_fixup_ : bool
}.

Definition GetVerificationResults (this : CompilerDriver) :=
  verification_results_ this.
Definition GetMethodInlinerMap (this : CompilerDriver) :=
  method_inliner_map_ this.
Definition GetInstructionSet (this : CompilerDriver) :=
  instruction_set_ this.
Definition GetInstructionSetFeatures (this : CompilerDriver) :=
  instruction_set_features_ this.
Definition GetCompilerBackend (this : CompilerDriver) :=
  compiler_backend_ this.
Definition IsImage (this : CompilerDriver) : bool := image_ this.
Definition GetImageClasses (this : CompilerDriver) := image_classes_ this.
Definition GetThreadCount (this : CompilerDriver) : Z := thread_count_ this.
Definition GetDumpPasses (this : CompilerDriver) : bool := dump_passes_ this.

Definition GetSupportBootImageFixup (this : CompilerDriver) : bool :=
  support_boot_image_fixup_ this.

Definition SetSupportBootImageFixup (support_boot_image_fixup : bool)
    (this : CompilerDriver) : CompilerDriver :=
  {| verification_results_ := verification_results_ this;
     method_inliner_map_ := method_inliner_map_ this;
     compiler_backend_ := compiler_backend_ this;
     instruction_set_ := instruction_set_ this;
     instruction_set_features_ := instruction_set_features_ this;
     image_ := image_ this;
     image_classes_ := image_classes_ this;
     thread_count_ := thread_count_ this;
     dump_passes_ := dump_passes_ this;
     compiler_context_ := compiler_context_ this;
     support_boot_image_fixup_ := support_boot_image_fixup |}.

Definition GetCompilerContext (this : CompilerDriver)
  : option CompilerContext :=
  compiler_context_ this.

Definition SetCompilerContext (compiler_context : option CompilerContext)
    (this : CompilerDriver) : CompilerDriver :=
  {| verification_results_ := verification_results_ this;
     method_inliner_map_ := method_inliner_map_ this;
     compiler_backend_ := compiler_backend_ this;
     instruction_set_ := instruction_set_ this;
     instruction_set_features_ := instruction_set_features_ this;
     image_ := image_ this;
     image_classes_ := image_classes_ this;
     thread_count_ := thread_count_ this;
     dump_passes_ := dump_passes_ this;
     compiler_context_ := compiler_context;
     support_boot_image_fixup_ := support_boot_image_fixup_ this |}.

(** A call of one of the two setters, and a sequence of such calls. *)
Inductive SetterCall : Type :=
| CallSetSupportBootImageFixup (support_boot_image_fixup : bool)
| CallSetCompilerContext (compiler_context : option CompilerContext).

Definition call (c : SetterCall) (this : CompilerDriver) : CompilerDriver :=
  match c with
  | CallSetSupportBootImageFixup b => SetSupportBootImageFixup b this
  | CallSetCompilerContext p => SetCompilerContext p this
  end.

Definition call_all (calls : list SetterCall) (this : CompilerDriver)
  : CompilerDriver :=
  foldl (fun this c => call c this) this calls.

(** The values the calls of a sequence passed to each setter, in order. *)
Definition fixup_values (calls : list SetterCall) : list bool :=
  omap (fun c => match c with
                 | CallSetSupportBootImageFixup b => Some b
                 | CallSetCompilerContext _ => None
                 end) calls.

Definition context_values (calls : list SetterCall)
  : list (option CompilerContext) :=
  omap (fun c => match c with
                 | CallSetCompilerContext p => Some p
                 | CallSetSupportBootImageFixup _ => None
                 end) calls.

(** What the accessors without a setter return. *)
Definition fixed_part (this : CompilerDriver) :=
  (GetVerificationResults this, GetMethodInlinerMap this,
   GetCompilerBackend this, GetInstructionSet this,
   GetInstructionSetFeatures this, IsImage this, GetImageClasses this,
   GetThreadCount this, GetDumpPasses this).

End Accessors.

End Driver.

(** ** Facts on machine arithmetic *)

Section MachineArithmetic.

Lemma wrap_range bits x : 0 <= bits -> 0 <= wrap bits x < 2 ^ bits.
Proof.
  intros Hb. unfold wrap. apply Z.mod_pos_bound.
  apply Z.pow_pos_nonneg; lia.
Qed.

Lemma wrap_small bits x : 0 <= x < 2 ^ bits -> wrap bits x = x.
Proof. intros Hx. unfold wrap. now apply Z.mod_small. Qed.

Lemma bits_above n x i :
  0 <= x < 2 ^ n -> n <= i -> Z.testbit x i = false.
Proof.
  intros Hx Hi.
  destruct (Z.lt_ge_cases n 0) as [Hn|Hn].
  - rewrite Z.pow_neg_r in Hx by lia. lia.
  - rewrite <- (Z.mod_small x (2 ^ n)) by lia.
    apply Z.mod_pow2_bits_high. lia.
Qed.

Lemma below_pow2 n x :
  0 <= n -> 0 <= x -> (forall i, n <= i -> Z.testbit x i = false) ->
  x < 2 ^ n.
Proof.
  intros Hn Hx Hhigh.
  assert (Hmod : x mod 2 ^ n = x).
  { apply Z.bits_inj'. intros i Hi.
    rewrite Z.testbit_mod_pow2 by lia.
    destruct (Z.ltb_spec i n) as [Hlt|Hge]; simpl; [reflexivity|].
    symmetry. now apply Hhigh. }
  pose proof (Z.mod_pos_bound x (2 ^ n)) as Hbound.
  assert (0 < 2 ^ n) by (apply Z.pow_pos_nonneg; lia). lia.
Qed.

Lemma lxor_range n a b :
  0 <= n -> 0 <= a < 2 ^ n -> 0 <= b < 2 ^ n -> 0 <= Z.lxor a b < 2 ^ n.
Proof.
  intros Hn Ha Hb.
  assert (Hnn : 0 <= Z.lxor a b) by (apply Z.lxor_nonneg; lia).
  split; [exact Hnn|].
  apply below_pow2; try assumption.
  intros i Hi. rewrite Z.lxor_spec.
  rewrite (bits_above n a i), (bits_above n b i) by assumption.
  reflexivity.
Qed.

Lemma shiftr_range n k a : 0 <= k -> 0 <= a < 2 ^ n -> 0 <= Z.shiftr a k < 2 ^ n.
Proof.
  intros Hk Ha. rewrite Z.shiftr_div_pow2 by assumption.
  assert (Hp : 0 < 2 ^ k) by (apply Z.pow_pos_nonneg; lia).
  split.
  - apply Z.div_pos; lia.
  - apply Z.le_lt_trans with a; [|lia].
    apply Z.div_le_upper_bound; [assumption|nia].
Qed.

Lemma lxor_cancel_l x a b : Z.lxor x a = Z.lxor x b -> a = b.
Proof.
  intros H.
  assert (H' : Z.lxor x (Z.lxor x a) = Z.lxor x (Z.lxor x b))
    by (now rewrite H).
  now rewrite <- !Z.lxor_assoc, !Z.lxor_nilpotent, !Z.lxor_0_l in H'.
Qed.

Lemma lxor_cancel_r x a b : Z.lxor a x = Z.lxor b x -> a = b.
Proof. rewrite !(Z.lxor_comm _ x). apply lxor_cancel_l. Qed.

Lemma odd_coprime_pow2 bits p :
  0 <= bits -> Z.odd p = true -> Z.gcd (2 ^ bits) p = 1.
Proof.
  intros Hb Hp. apply Z.coprime_pow_l; [assumption|].
  apply Z.odd_spec in Hp. destruct Hp as [k Hk].
  apply Z.coprime_Bezout. exists (- k), 1. lia.
Qed.

(** Multiplication by an odd constant is injective modulo [2 ^ bits]. *)
Lemma mul_odd_inj bits p a b :
  0 <= bits -> Z.odd p = true ->
  0 <= a < 2 ^ bits -> 0 <= b < 2 ^ bits ->
  wrap bits (a * p) = wrap bits (b * p) -> a = b.
Proof.
  unfold wrap. intros Hb Hp Ha Hb' H.
  assert (Hpos : 0 < 2 ^ bits) by (apply Z.pow_pos_nonneg; lia).
  apply Z.cong_iff_0 in H.
  apply Z.mod_divide in H; [|lia].
  replace (a * p - b * p) with (p * (a - b)) in H by ring.
  apply Z.gauss in H; [|now apply odd_coprime_pow2].
  destruct H as [z Hz].
  assert (z = 0) by nia. subst z. lia.
Qed.

(** [x ^ (x >> k)] is injective on [bits]-bit words. *)
Lemma xorshift_inj n k a b :
  0 < k -> 0 <= a < 2 ^ n -> 0 <= b < 2 ^ n ->
  Z.lxor a (Z.shiftr a k) = Z.lxor b (Z.shiftr b k) -> a = b.
Proof.
  intros Hk Ha Hb H.
  assert (Hdown : forall m : nat, forall i,
             0 <= i -> n - Z.of_nat m <= i ->
             Z.testbit a i = Z.testbit b i).
  { induction m as [|m IH]; intros i Hi Hge.
    - rewrite (bits_above n a i), (bits_above n b i) by lia. reflexivity.
    - assert (Hnext : Z.testbit a (i + k) = Z.testbit b (i + k))
        by (apply IH; lia).
      assert (Hbit : Z.testbit (Z.lxor a (Z.shiftr a k)) i
                     = Z.testbit (Z.lxor b (Z.shiftr b k)) i)
        by (now rewrite H).
      rewrite !Z.lxor_spec, !Z.shiftr_spec, Hnext in Hbit by assumption.
      destruct (Z.testbit a i), (Z.testbit b i), (Z.testbit b (i + k));
        simpl in Hbit; congruence. }
  apply Z.bits_inj'. intros i Hi.
  apply (Hdown (Z.to_nat (Z.max n 0)) i Hi). lia.
Qed.

End MachineArithmetic.

(** ** Facts on DedupeHashFunc *)

Section HashFacts.

Import Hash.

Variable bits : Z.

Lemma byte_val_range b : 0 <= byte_val b < 256.
Proof. unfold byte_val. pose proof (to_N_bounded b). lia. Qed.

Lemma byte_val_inj a b : byte_val a = byte_val b -> a = b.
Proof.
  unfold byte_val. intros H. apply N2Z.inj in H.
  pose proof (of_to_N a) as Ha. rewrite H, of_to_N in Ha. congruence.
Qed.

Lemma at_index_in_range array p log :
  0 <= p < Z.of_nat (length array) ->
  at_index p array log = Some (byte_at array p, log ++ [p]).
Proof.
  intros Hp. unfold at_index, byte_at.
  destruct (Z.leb_spec 0 p) as [_|Hneg]; [|lia].
  destruct (lookup_lt_is_Some_2 array (Z.to_nat p)) as [b Hb]; [lia|].
  rewrite Hb, nth_lookup, Hb. reflexivity.
Qed.

Lemma at_index_out_of_range array p log :
  Z.of_nat (length array) <= p -> at_index p array log = None.
Proof.
  intros Hp. unfold at_index.
  destruct (Z.leb_spec 0 p) as [_|Hneg]; [|reflexivity].
  rewrite lookup_ge_None_2 by lia. reflexivity.
Qed.

(** A loop whose every round reads one position inside the array does not
    fail; it folds the bytes at those positions and logs them. *)
Lemma for_loop_reads array (f : Z -> Z) :
  forall n i hash log,
    (forall j, i <= j < i + Z.of_nat n ->
               0 <= f j < Z.of_nat (length array)) ->
    for_loop n i
      (fun i hash => bind (at_index (f i))
                       (fun b => ret (fnv_step bits hash b)))
      hash array log
    = Some (fold_positions bits array (map f (zseq i n)) hash,
            log ++ map f (zseq i n)).
Proof.
  induction n as [|n IH]; intros i hash log Hin; simpl.
  - unfold ret. now rewrite app_nil_r.
  - unfold bind at 1. unfold bind at 1.
    rewrite at_index_in_range by (apply Hin; lia).
    unfold ret at 1. rewrite IH by (intros j Hj; apply Hin; lia).
    unfold fold_positions. simpl. now rewrite <- app_assoc.
Qed.

Lemma fold_positions_all :
  forall suf pre hash,
    fold_positions bits (pre ++ suf)
      (zseq (Z.of_nat (length pre)) (length suf)) hash
    = fold_left (fun h b => fnv_step bits h (byte_val b)) suf hash.
Proof.
  induction suf as [|b suf IH]; intros pre hash; [reflexivity|].
  unfold fold_positions. simpl.
  assert (Hb : byte_at (pre ++ b :: suf) (Z.of_nat (length pre))
               = byte_val b)
    by (unfold byte_at; now rewrite Nat2Z.id, nth_middle).
  rewrite Hb.
  specialize (IH (pre ++ [b]) (fnv_step bits hash (byte_val b))).
  rewrite <- app_assoc, length_app in IH. simpl in IH.
  replace (Z.of_nat (length pre + 1)) with (Z.of_nat (length pre) + 1)
    in IH by lia.
  exact IH.
Qed.

(** *** The accumulator stays a [bits]-bit word and forgets nothing *)

Hypothesis size_t_width : 32 <= bits.

Lemma basis_word : in_word bits 0x811c9dc5.
Proof.
  unfold in_word. split; [lia|].
  apply Z.lt_le_trans with (2 ^ 32); [reflexivity|].
  apply Z.pow_le_mono_r; lia.
Qed.

Lemma byte_word b : in_word bits (byte_val b).
Proof.
  unfold in_word. pose proof (byte_val_range b).
  assert (2 ^ 8 <= 2 ^ bits) by (apply Z.pow_le_mono_r; lia).
  change (2 ^ 8) with 256 in *. lia.
Qed.

Lemma fnv_step_word h b : in_word bits (fnv_step bits h (byte_val b)).
Proof.
  unfold fnv_step. apply lxor_range; [lia| |apply byte_word].
  apply wrap_range. lia.
Qed.

Lemma fnv_step_inj_hash h1 h2 b :
  in_word bits h1 -> in_word bits h2 ->
  fnv_step bits h1 b = fnv_step bits h2 b -> h1 = h2.
Proof.
  unfold fnv_step. intros H1 H2 H. apply lxor_cancel_r in H.
  apply (mul_odd_inj bits 16777619); auto. lia.
Qed.

Lemma fnv_step_inj_byte h b1 b2 :
  fnv_step bits h b1 = fnv_step bits h b2 -> b1 = b2.
Proof. unfold fnv_step. apply lxor_cancel_l. Qed.

Lemma fold_bytes_word array :
  forall h, in_word bits h ->
    in_word bits (fold_left (fun h b => fnv_step bits h (byte_val b)) array h).
Proof.
  induction array as [|b array IH]; intros h Hh; simpl; [exact Hh|].
  apply IH, fnv_step_word.
Qed.

Lemma fold_bytes_inj array :
  forall h1 h2, in_word bits h1 -> in_word bits h2 ->
    fold_left (fun h b => fnv_step bits h (byte_val b)) array h1
    = fold_left (fun h b => fnv_step bits h (byte_val b)) array h2 ->
    h1 = h2.
Proof.
  induction array as [|b array IH]; intros h1 h2 H1 H2 H; simpl in H;
    [exact H|].
  apply IH in H; try apply fnv_step_word.
  now apply fnv_step_inj_hash in H.
Qed.

Lemma add_shl_mul s h :
  0 <= s -> add_shl bits s h = wrap bits (h * (2 ^ s + 1)).
Proof.
  intros Hs. unfold add_shl, wrap.
  rewrite Z.shiftl_mul_pow2 by assumption.
  rewrite Zplus_mod_idemp_r. f_equal. ring.
Qed.

Lemma add_shl_word s h : in_word bits (add_shl bits s h).
Proof. unfold add_shl. apply wrap_range. lia. Qed.

Lemma add_shl_inj s h1 h2 :
  0 < s -> in_word bits h1 -> in_word bits h2 ->
  add_shl bits s h1 = add_shl bits s h2 -> h1 = h2.
Proof.
  intros Hs H1 H2. rewrite !add_shl_mul by lia.
  apply mul_odd_inj; auto; [lia|].
  rewrite Z.add_comm, Z.odd_add_even; [reflexivity|].
  exists (2 ^ (s - 1)). rewrite <- Z.pow_succ_r by lia. f_equal. lia.
Qed.

Lemma xor_shr_word s h : 0 <= s -> in_word bits h -> in_word bits (xor_shr s h).
Proof.
  intros Hs Hh. unfold xor_shr.
  apply lxor_range; [lia|exact Hh|now apply shiftr_range].
Qed.

Lemma xor_shr_inj s h1 h2 :
  0 < s -> in_word bits h1 -> in_word bits h2 -> xor_shr s h1 = xor_shr s h2 -> h1 = h2.
Proof. intros Hs H1 H2. unfold xor_shr. now apply xorshift_inj with bits. Qed.

(** The final mixing is a one-to-one map on words. *)
Lemma final_mix_inj h1 h2 :
  in_word bits h1 -> in_word bits h2 -> final_mix bits h1 = final_mix bits h2 -> h1 = h2.
Proof.
  intros H1 H2. unfold final_mix. cbv zeta. intros H.
  apply add_shl_inj in H; [|lia|repeat first
    [apply xor_shr_word; [lia|] | apply add_shl_word]..].
  apply xor_shr_inj in H; [|lia|apply add_shl_word..].
  apply add_shl_inj in H; [|lia|repeat first
    [apply xor_shr_word; [lia|] | apply add_shl_word]..].
  apply xor_shr_inj in H; [|lia|apply add_shl_word..].
  now apply add_shl_inj in H.
Qed.

Lemma hash_every_byte_fold array :
  hash_every_byte bits array
  = final_mix bits
      (fold_left (fun h b => fnv_step bits h (byte_val b)) array 0x811c9dc5).
Proof. reflexivity. Qed.

(** Two arrays that differ in exactly one byte have different
    every-byte hashes. *)
Lemma hash_every_byte_sensitive pre b b' suf :
  b <> b' ->
  hash_every_byte bits (pre ++ b' :: suf)
  <> hash_every_byte bits (pre ++ b :: suf).
Proof.
  intros Hne H. rewrite !hash_every_byte_fold in H.
  apply final_mix_inj in H;
    [|apply fold_bytes_word, basis_word..].
  rewrite !fold_left_app in H. simpl in H.
  apply fold_bytes_inj in H; [|apply fnv_step_word..].
  apply fnv_step_inj_byte, byte_val_inj in H. congruence.
Qed.

(** On an array of at most sixteen bytes the code computes the
    every-byte hash and reads positions 0, 1, ..., size - 1. *)
Lemma operator_call_small array :
  (length array <= 16)%nat ->
  DedupeHashFunc bits array
  = Some (hash_every_byte bits array, zseq 0 (length array)).
Proof.
  intros Hlen. unfold DedupeHashFunc, operator_call.
  unfold bind at 1. unfold size at 1.
  unfold bind at 1.
  destruct (Z.leb_spec (Z.of_nat (length array)) kSmallArrayThreshold)
    as [_|Hgt]; [|unfold kSmallArrayThreshold in Hgt; lia].
  rewrite Nat2Z.id.
  rewrite (for_loop_reads array (fun i => i))
    by (intros j Hj; lia).
  unfold ret. rewrite map_id. simpl.
  rewrite (fold_positions_all array []).
  rewrite wrap_small by apply basis_word.
  reflexivity.
Qed.

Lemma sample_positions_length sz :
  length (sample_positions bits sz) = 16%nat.
Proof. reflexivity. Qed.

Lemma random_positions_in_bounds sz :
  0 < sz ->
  Forall (fun p => 0 <= p < sz)
    (map (fun i => random_r bits i mod sz)
         [2; 3; 4; 5; 6; 7; 8; 9; 10; 11; 12; 13; 14; 15]).
Proof.
  intros Hsz. apply Forall_map, Forall_forall. intros i _. simpl.
  now apply Z.mod_pos_bound.
Qed.

Lemma sample_positions_in_bounds sz :
  7 < sz -> Forall (fun p => 0 <= p < sz) (sample_positions bits sz).
Proof.
  intros Hsz. unfold sample_positions. apply Forall_app. split.
  - repeat constructor; lia.
  - apply random_positions_in_bounds. lia.
Qed.

Lemma random_r_exact i :
  34 <= bits -> 2 <= i <= 15 -> random_r bits i = i * 1103515245 + 12345.
Proof.
  intros Hb Hi. unfold random_r.
  assert (H34 : 2 ^ 34 <= 2 ^ bits) by (apply Z.pow_le_mono_r; lia).
  change (2 ^ 34) with 17179869184 in H34.
  rewrite (wrap_small bits (i * 1103515245)) by lia.
  apply wrap_small. lia.
Qed.

Lemma sample_positions_exact_eq sz :
  34 <= bits -> sample_positions bits sz = sample_positions_exact sz.
Proof.
  intros Hb. unfold sample_positions, sample_positions_exact. f_equal.
  apply map_ext_in. intros i Hi.
  rewrite random_r_exact; [reflexivity|assumption|].
  simpl in Hi. lia.
Qed.

(** On an array of more than sixteen bytes the code reads the sixteen
    sampled positions, none outside the array, and folds those bytes. *)
Lemma operator_call_large array :
  (16 < length array)%nat ->
  DedupeHashFunc bits array
  = Some (hash_sampled bits array,
          sample_positions bits (Z.of_nat (length array))).
Proof.
  intros Hlen. unfold DedupeHashFunc, operator_call.
  unfold bind at 1. unfold size at 1.
  unfold bind at 1.
  destruct (Z.leb_spec (Z.of_nat (length array)) kSmallArrayThreshold)
    as [Hle|_]; [unfold kSmallArrayThreshold in Hle; lia|].
  pose proof basis_word as [Hb0 Hb1].
  assert (H8 : 8 < 2 ^ bits) by lia.
  unfold bind at 1.
  rewrite (for_loop_reads array (fun i => wrap bits (i + 6))); cycle 1.
  { intros j Hj. rewrite wrap_small by lia. lia. }
  change (Z.to_nat (kRandomHashCount - 2)) with 14%nat.
  rewrite (for_loop_reads array
             (fun i => random_r bits i mod Z.of_nat (length array)));
    cycle 1.
  { intros j Hj. apply Z.mod_pos_bound. lia. }
  change (zseq 0 2) with [0; 1].
  change (zseq 2 14)
    with [2; 3; 4; 5; 6; 7; 8; 9; 10; 11; 12; 13; 14; 15].
  unfold ret, hash_sampled, sample_positions.
  cbn [map app].
  change (0 + 6) with 6. change (1 + 6) with 7.
  rewrite (wrap_small bits 6), (wrap_small bits 7),
    (wrap_small bits 2166136261) by lia.
  unfold fold_positions. rewrite <- fold_left_app. reflexivity.
Qed.

(** The sampled hash reads nothing but the sampled positions. *)
Lemma hash_sampled_agree array array' :
  length array' = length array ->
  (forall p, In p (sample_positions bits (Z.of_nat (length array))) ->
             byte_at array' p = byte_at array p) ->
  hash_sampled bits array' = hash_sampled bits array.
Proof.
  intros Hlen Hagree. unfold hash_sampled. rewrite Hlen. f_equal.
  revert Hagree.
  generalize (sample_positions bits (Z.of_nat (length array))).
  generalize 0x811c9dc5.
  intros h l. revert h.
  induction l as [|p l IH]; intros h Hagree; [reflexivity|].
  unfold fold_positions in *. simpl.
  rewrite (Hagree p) by (now left).
  apply IH. intros q Hq. apply Hagree. now right.
Qed.

End HashFacts.

(** ** Facts on the deduplication sets *)

Section DedupeFacts.

Import Dedupe.

Variable bits : Z.
Hypothesis size_t_width : 32 <= bits.

(** The fingerprint never indexes outside the array. *)
Lemma DedupeHashFunc_total (b : list byte) :
  exists h log, Hash.DedupeHashFunc bits b = Some (h, log).
Proof.
  destruct (le_lt_dec (length b) 16) as [Hsmall|Hlarge].
  - eexists _, _. now apply operator_call_small.
  - eexists _, _. now apply operator_call_large.
Qed.

Lemma find_equal_Some owned b bucket k :
  find_equal owned b bucket = Some k -> owned !! k = Some b.
Proof.
  induction bucket as [|k0 bucket IH]; simpl; [discriminate|].
  case_bool_decide as Hk; [|exact IH].
  intros [= <-]. exact Hk.
Qed.

Lemma find_equal_None owned b bucket k :
  find_equal owned b bucket = None -> k ∈ bucket -> owned !! k <> Some b.
Proof.
  induction bucket as [|k0 bucket IH]; simpl; intros Hnone Hin.
  - now apply elem_of_nil in Hin.
  - case_bool_decide as Hk; [discriminate|].
    apply elem_of_cons in Hin. destruct Hin as [->|Hin]; auto.
Qed.

Lemma wf_empty : wf bits empty_set.
Proof.
  split; [constructor|]. intros k b Hk. simpl in Hk.
  now rewrite lookup_nil in Hk.
Qed.

(** Content that is owned is found again, under the handle it has. *)
Lemma Add_hit s k b :
  wf bits s -> content s k = Some b -> Add bits b s = Some (k, s).
Proof.
  intros [Hnodup Hkeys] Hk. unfold content in Hk. unfold Add.
  destruct (Hkeys k b Hk) as (h & log & Hh & Hin). rewrite Hh.
  destruct (find_equal (buffers s) b (default [] (keys s !! h)))
    as [k'|] eqn:Hfind.
  - apply find_equal_Some in Hfind.
    now rewrite (NoDup_lookup _ _ _ _ Hnodup Hfind Hk).
  - now destruct (find_equal_None _ _ _ k Hfind Hin).
Qed.

(** Interning returns a handle to the content, keeps every buffer that
    was owned under its handle, and allocates only content that was not
    owned. *)
Lemma Add_spec s b :
  wf bits s ->
  exists k s',
    Add bits b s = Some (k, s') /\ wf bits s' /\ content s' k = Some b
    /\ (forall k0 b0, content s k0 = Some b0 -> content s' k0 = Some b0)
    /\ (b ∈ buffers s -> s' = s)
    /\ (b ∉ buffers s -> buffers s' = buffers s ++ [b]).
Proof.
  intros Hwf. destruct (decide (b ∈ buffers s)) as [Hin|Hnotin].
  - apply list_elem_of_lookup in Hin. destruct Hin as [k Hk].
    exists k, s. split; [now apply Add_hit|].
    split; [exact Hwf|]. split; [exact Hk|]. split; [auto|].
    split; [reflexivity|].
    intros Hnot. exfalso. apply Hnot.
    apply list_elem_of_lookup. now exists k.
  - destruct Hwf as [Hnodup Hkeys]. unfold Add.
    destruct (DedupeHashFunc_total b) as (h & log & Hh). rewrite Hh.
    destruct (find_equal (buffers s) b (default [] (keys s !! h)))
      as [k'|] eqn:Hfind.
    { apply find_equal_Some in Hfind. exfalso. apply Hnotin.
      apply list_elem_of_lookup. now exists k'. }
    eexists _, _. split; [reflexivity|]. unfold content. simpl.
    split; [split|].
    + apply NoDup_app. repeat split; auto.
      * intros x Hx Hx'. apply list_elem_of_singleton in Hx'. now subst.
      * apply NoDup_singleton.
    + simpl. intros k0 b0 Hk0.
      destruct (decide (k0 < length (buffers s))%nat) as [Hlt|Hge].
      * rewrite lookup_app_l in Hk0 by assumption.
        destruct (Hkeys k0 b0 Hk0) as (h0 & log0 & Hh0 & Hin0).
        exists h0, log0. split; [assumption|].
        destruct (decide (h = h0)) as [->|Hne].
        -- rewrite lookup_insert_eq. simpl. now apply elem_of_cons; right.
        -- now rewrite lookup_insert_ne.
      * rewrite lookup_app_r in Hk0 by lia.
        apply list_lookup_singleton_Some in Hk0. destruct Hk0 as [Hk0 <-].
        exists h, log. split; [assumption|].
        rewrite lookup_insert_eq. simpl. apply elem_of_cons; left. lia.
    + split; [|split; [|split]].
      * rewrite lookup_app_r by lia. now rewrite Nat.sub_diag.
      * intros k0 b0 Hk0. now apply lookup_app_l_Some.
      * intros Hin. contradiction.
      * reflexivity.
Qed.

Lemma wf_empty_sets : wf_sets bits empty_sets.
Proof. intros []; apply wf_empty. Qed.

(** A [Deduplicate...] call is [Add] on its own set and leaves the three
    other sets alone. *)
Lemma Deduplicate_Add kind b d k s :
  Add bits b (set_of kind d) = Some (k, s) ->
  exists d',
    Deduplicate bits kind b d = Some (k, d')
    /\ set_of kind d' = s
    /\ forall kind', kind' <> kind -> set_of kind' d' = set_of kind' d.
Proof.
  intros HAdd.
  destruct kind; simpl in *;
    unfold DeduplicateCode, DeduplicateMappingTable, DeduplicateVMapTable,
      DeduplicateGCMap;
    rewrite HAdd; eexists; (split; [reflexivity|]);
    (split; [reflexivity|]); intros [] Hne; try reflexivity; congruence.
Qed.

Lemma Deduplicate_hit kind b d k :
  wf_sets bits d -> content (set_of kind d) k = Some b ->
  Deduplicate bits kind b d = Some (k, d).
Proof.
  intros Hwf Hk. pose proof (Add_hit _ _ _ (Hwf kind) Hk) as HAdd.
  destruct kind, d; simpl in *;
    unfold DeduplicateCode, DeduplicateMappingTable, DeduplicateVMapTable,
      DeduplicateGCMap; simpl;
    now rewrite HAdd.
Qed.

Lemma Deduplicate_spec kind b d :
  wf_sets bits d ->
  exists k d',
    Deduplicate bits kind b d = Some (k, d')
    /\ wf_sets bits d'
    /\ content (set_of kind d') k = Some b
    /\ (forall kind' k0 b0, content (set_of kind' d) k0 = Some b0 ->
                            content (set_of kind' d') k0 = Some b0)
    /\ (forall kind', kind' <> kind -> set_of kind' d' = set_of kind' d)
    /\ (b ∈ buffers (set_of kind d) -> d' = d)
    /\ (b ∉ buffers (set_of kind d) ->
        buffers (set_of kind d') = buffers (set_of kind d) ++ [b]).
Proof.
  intros Hwf.
  destruct (Add_spec (set_of kind d) b (Hwf kind))
    as (k & s' & HAdd & Hwf' & Hk & Hkeep & Hsame & Hnew).
  destruct (Deduplicate_Add kind b d k s' HAdd) as (d' & HD & Hset & Hother).
  exists k, d'. split; [exact HD|]. split; [|split; [|split; [|split]]].
  - intros kind'. destruct (decide (kind' = kind)) as [->|Hne].
    + now rewrite Hset.
    + rewrite Hother by assumption. apply Hwf.
  - now rewrite Hset.
  - intros kind' k0 b0 Hk0. destruct (decide (kind' = kind)) as [->|Hne].
    + rewrite Hset. now apply Hkeep.
    + now rewrite Hother.
  - exact Hother.
  - split.
    + intros Hin. apply list_elem_of_lookup in Hin. destruct Hin as [k1 Hk1].
      rewrite (Deduplicate_hit kind b d k1 Hwf Hk1) in HD. congruence.
    + rewrite Hset. exact Hnew.
Qed.

Lemma Deduplicate_all_spec calls :
  forall d, wf_sets bits d ->
    exists d',
      Deduplicate_all bits calls d = Some d'
      /\ wf_sets bits d'
      /\ (forall kind k b, content (set_of kind d) k = Some b ->
                           content (set_of kind d') k = Some b).
Proof.
  induction calls as [|[kind b] calls IH]; intros d Hwf; simpl.
  - exists d. auto.
  - destruct (Deduplicate_spec kind b d Hwf)
      as (k & d1 & HD & Hwf1 & _ & Hkeep1 & _).
    rewrite HD.
    destruct (IH d1 Hwf1) as (d' & Hall & Hwf' & Hkeep').
    exists d'. split; [exact Hall|]. split; [exact Hwf'|].
    intros kind0 k0 b0 Hk0. apply Hkeep', Hkeep1, Hk0.
Qed.

End DedupeFacts.

(** ** Facts on the tables of compiled classes and methods *)

Section TablesFacts.

Import Tables.

Context {DexFile : Type} `{Countable DexFile}.
Context {CompiledClass CompiledMethod : Type}.

Abbreviation Tables :=
  (@ArtifactTables DexFile _ _ CompiledClass CompiledMethod).
Abbreviation Insertions :=
  (list (@Insertion DexFile CompiledClass CompiledMethod)).

(** A run that ends without a fatal error stored every artifact under a
    reference that was free, and stored nothing else. *)
Lemma run_Ok_inv (insertions : Insertions) :
  forall t t' : Tables,
    run insertions t = Ok t' ->
    (NoDup (class_insertions insertions).*1
     /\ (forall ref, ref ∈ (class_insertions insertions).*1 ->
                     GetCompiledClass ref t = None)
     /\ (forall ref a, GetCompiledClass ref t' = Some a <->
                       (ref, a) ∈ class_insertions insertions
                       \/ GetCompiledClass ref t = Some a))
    /\ (NoDup (method_insertions insertions).*1
        /\ (forall ref, ref ∈ (method_insertions insertions).*1 ->
                        GetCompiledMethod ref t = None)
        /\ (forall ref a, GetCompiledMethod ref t' = Some a <->
                          (ref, a) ∈ method_insertions insertions
                          \/ GetCompiledMethod ref t = Some a)).
Proof.
  induction insertions as [|[ref a|ref a] insertions IH];
    intros t t' Hrun; simpl in Hrun.
  - injection Hrun as <-. simpl.
    split; (split; [constructor|]);
      (split;
       [intros ref Hin; now apply elem_of_nil in Hin
       |intros ref a; split;
        [auto|intros [Hin|Hg]; [now apply elem_of_nil in Hin|exact Hg]]]).
  - unfold put_class in Hrun.
    destruct (compiled_classes_ t !! ref) eqn:Hfree; [discriminate|].
    simpl in Hrun.
    apply IH in Hrun as [(Hnd & Hfr & Hget) Hmethods].
    unfold GetCompiledClass, GetCompiledMethod in *. simpl in *.
    split; [|exact Hmethods].
    split; [|split].
    + apply NoDup_cons. split; [|exact Hnd].
      intros Hin. apply Hfr in Hin. now rewrite lookup_insert_eq in Hin.
    + intros r Hr. apply elem_of_cons in Hr. destruct Hr as [->|Hr];
        [exact Hfree|].
      apply Hfr in Hr. now apply lookup_insert_None in Hr.
    + intros r x. rewrite Hget, lookup_insert_Some, elem_of_cons.
      split.
      * intros [Hin|[[<- <-]|[Hne Hold]]];
          [left; right; exact Hin|left; left; reflexivity|right; exact Hold].
      * intros [[Heq|Hin]|Hold].
        -- injection Heq as -> ->. right; left. split; reflexivity.
        -- left. exact Hin.
        -- right; right. split; [|exact Hold].
           intros <-. rewrite Hfree in Hold. discriminate.
  - unfold put_method in Hrun.
    destruct (compiled_methods_ t !! ref) eqn:Hfree; [discriminate|].
    simpl in Hrun.
    apply IH in Hrun as [Hclasses (Hnd & Hfr & Hget)].
    unfold GetCompiledClass, GetCompiledMethod in *. simpl in *.
    split; [exact Hclasses|].
    split; [|split].
    + apply NoDup_cons. split; [|exact Hnd].
      intros Hin. apply Hfr in Hin. now rewrite lookup_insert_eq in Hin.
    + intros r Hr. apply elem_of_cons in Hr. destruct Hr as [->|Hr];
        [exact Hfree|].
      apply Hfr in Hr. now apply lookup_insert_None in Hr.
    + intros r x. rewrite Hget, lookup_insert_Some, elem_of_cons.
      split.
      * intros [Hin|[[<- <-]|[Hne Hold]]];
          [left; right; exact Hin|left; left; reflexivity|right; exact Hold].
      * intros [[Heq|Hin]|Hold].
        -- injection Heq as -> ->. right; left. split; reflexivity.
        -- left. exact Hin.
        -- right; right. split; [|exact Hold].
           intros <-. rewrite Hfree in Hold. discriminate.
Qed.

(** A run whose references are pairwise distinct and free ends without a
    fatal error. *)
Lemma run_total (insertions : Insertions) :
  forall t : Tables,
    NoDup (class_insertions insertions).*1 ->
    NoDup (method_insertions insertions).*1 ->
    (forall ref, ref ∈ (class_insertions insertions).*1 ->
                 GetCompiledClass ref t = None) ->
    (forall ref, ref ∈ (method_insertions insertions).*1 ->
                 GetCompiledMethod ref t = None) ->
    exists t', run insertions t = Ok t'.
Proof.
  unfold GetCompiledClass, GetCompiledMethod.
  induction insertions as [|[ref a|ref a] insertions IH];
    intros t Hc Hm Hfc Hfm; simpl in *.
  - now exists t.
  - apply NoDup_cons in Hc as [Hnotin Hc].
    unfold put_class.
    rewrite (Hfc ref) by (apply elem_of_cons; left; reflexivity). simpl.
    apply IH; simpl; auto.
    intros r Hr. rewrite lookup_insert_ne by (intros ->; contradiction).
    apply Hfc. apply elem_of_cons; right; exact Hr.
  - apply NoDup_cons in Hm as [Hnotin Hm].
    unfold put_method.
    rewrite (Hfm ref) by (apply elem_of_cons; left; reflexivity). simpl.
    apply IH; simpl; auto.
    intros r Hr. rewrite lookup_insert_ne by (intros ->; contradiction).
    apply Hfm. apply elem_of_cons; right; exact Hr.
Qed.

(** A second insertion for a reference is a fatal error. *)
Lemma put_class_twice (t : Tables) ref a a' :
  GetCompiledClass ref t = Some a ->
  put_class ref a' t = Fatal "duplicate compiled class".
Proof. unfold GetCompiledClass, put_class. now intros ->. Qed.

Lemma put_method_twice (t : Tables) ref a a' :
  GetCompiledMethod ref t = Some a ->
  put_method ref a' t = Fatal "duplicate compiled method".
Proof. unfold GetCompiledMethod, put_method. now intros ->. Qed.

End TablesFacts.

(** ** Facts on the lists of patches *)

Section LedgerFacts.

Import Patch Ledger.

Context {DexFile InvokeType : Type}.

Abbreviation Lists := (@PatchLists DexFile InvokeType).
Abbreviation Request := (@PatchRequest DexFile InvokeType).

(** A record operation appends what it was asked for to its list. *)
Lemma record_spec (req : Request) (d : Lists) :
  record req d
  = Ok {| code_to_patch_ := code_to_patch_ d ++ code_entry req;
          methods_to_patch_ := methods_to_patch_ d ++ method_entry req;
          classes_to_patch_ := classes_to_patch_ d ++ class_entry req |}.
Proof.
  destruct req; simpl;
    unfold AddCodePatch, AddRelativeCodePatch, AddMethodPatch,
      AddClassPatch; simpl;
    now rewrite !app_nil_r.
Qed.

Lemma record_one_entry (req : Request) :
  (length (code_entry req) + length (method_entry req)
   + length (class_entry req) = 1)%nat.
Proof. now destruct req. Qed.

Lemma record_all_spec (reqs : list Request) :
  forall d : Lists,
    record_all reqs d
    = Ok {| code_to_patch_ := code_to_patch_ d ++ flat_map code_entry reqs;
            methods_to_patch_ :=
              methods_to_patch_ d ++ flat_map method_entry reqs;
            classes_to_patch_ :=
              classes_to_patch_ d ++ flat_map class_entry reqs |}.
Proof.
  induction reqs as [|req reqs IH]; intros d; simpl.
  - rewrite !app_nil_r. now destruct d.
  - rewrite record_spec. simpl. rewrite IH. simpl.
    now rewrite <- !app_assoc.
Qed.

End LedgerFacts.

(** ** Facts on resolution *)

Section ResolveFacts.

Import Resolve.

Variable modules : list DexModule.

(** The first module of the list that defines a name decides. *)
Lemma find_class_first pre A rest X idx :
  (forall m, m ∈ pre -> defines m X = None) ->
  defines A X = Some idx ->
  find_class X (pre ++ A :: rest) = Some (module_id A, idx).
Proof.
  intros Hpre HA. induction pre as [|m pre IH]; simpl.
  - now rewrite HA.
  - rewrite (Hpre m) by (now left). apply IH.
    intros m' Hm'. apply Hpre. now right.
Qed.

Lemma resolve_task_sound cache task :
  cache_sound modules cache -> cache_sound modules (resolve_task modules cache task).
Proof.
  intros Hs key def. unfold resolve_task.
  destruct (find_class task.2 modules) as [d|] eqn:Hfind; [|apply Hs].
  rewrite lookup_insert_Some. intros [[<- <-]|[_ Hold]]; auto.
Qed.

Lemma resolve_task_keeps cache task key :
  is_Some (cache !! key) ->
  is_Some (resolve_task modules cache task !! key).
Proof.
  intros Hk. unfold resolve_task.
  destruct (find_class task.2 modules) as [d|]; [|exact Hk].
  rewrite lookup_insert_is_Some. destruct (decide (task = key)); auto.
Qed.

Lemma resolve_task_stores cache task :
  is_Some (find_class task.2 modules) ->
  is_Some (resolve_task modules cache task !! task).
Proof.
  intros [d Hd]. unfold resolve_task. rewrite Hd.
  rewrite lookup_insert_eq. eauto.
Qed.

Lemma tasks_sound tasks :
  forall cache, cache_sound modules cache ->
                cache_sound modules (foldl (resolve_task modules) cache tasks).
Proof.
  induction tasks as [|t tasks IH]; intros cache Hs; simpl; [exact Hs|].
  apply IH, resolve_task_sound, Hs.
Qed.

Lemma tasks_keep tasks key :
  forall cache, is_Some (cache !! key) ->
                is_Some (foldl (resolve_task modules) cache tasks !! key).
Proof.
  induction tasks as [|t tasks IH]; intros cache Hk; simpl; [exact Hk|].
  apply IH, resolve_task_keeps, Hk.
Qed.

Lemma tasks_store tasks task :
  task ∈ tasks -> is_Some (find_class task.2 modules) ->
  forall cache,
    is_Some (foldl (resolve_task modules) cache tasks !! task).
Proof.
  intros Hin Hdef.
  induction tasks as [|t tasks IH]; intros cache; simpl.
  - now apply elem_of_nil in Hin.
  - apply elem_of_cons in Hin. destruct Hin as [<-|Hin].
    + apply tasks_keep, resolve_task_stores, Hdef.
    + now apply IH.
Qed.

Lemma resolve_each_sound todo :
  forall schedules cache,
    cache_sound modules cache ->
    cache_sound modules (resolve_each modules todo schedules cache).
Proof.
  induction todo as [|m todo IH]; intros [|sch schedules] cache Hs; simpl;
    try exact Hs.
  apply IH. unfold ResolveDexFile. now apply tasks_sound.
Qed.

Lemma resolve_each_keeps todo key :
  forall schedules cache,
    is_Some (cache !! key) ->
    is_Some (resolve_each modules todo schedules cache !! key).
Proof.
  induction todo as [|m todo IH]; intros [|sch schedules] cache Hk; simpl;
    try exact Hk.
  apply IH. unfold ResolveDexFile. now apply tasks_keep.
Qed.

Lemma resolve_each_stores todo schedules r X :
  Forall2 (fun m schedule => schedule ≡ₚ references m) todo schedules ->
  r ∈ todo -> X ∈ references r ->
  is_Some (find_class X modules) ->
  forall cache,
    is_Some (resolve_each modules todo schedules cache !! (module_id r, X)).
Proof.
  intros Hsch Hr HX Hdef.
  induction Hsch as [|m sch todo schedules Hperm Hrest IH]; intros cache.
  - now apply elem_of_nil in Hr.
  - simpl. apply elem_of_cons in Hr. destruct Hr as [<-|Hr].
    + apply resolve_each_keeps. unfold ResolveDexFile.
      apply tasks_store; [|exact Hdef].
      apply list_elem_of_fmap. exists X. split; [reflexivity|].
      now rewrite Hperm.
    + now apply IH.
Qed.

End ResolveFacts.

(** ** Worked examples *)

Example hash_two_bytes_32 :
  Hash.DedupeHashFunc 32 [x01; x02] = Some (1447052281, [0; 1]).
Proof. vm_compute. reflexivity. Qed.

Example hash_two_bytes_64 :
  Hash.DedupeHashFunc 64 [x01; x02] = Some (7704254071881005561, [0; 1]).
Proof. vm_compute. reflexivity. Qed.

Example hash_no_bytes_32 :
  Hash.DedupeHashFunc 32 [] = Some (1493338014, []).
Proof. vm_compute. reflexivity. Qed.

Example hash_twenty_bytes_32 :
  Hash.DedupeHashFunc 32 (repeat x01 20)
  = Some (2001379383,
          [6; 7; 15; 0; 9; 14; 19; 4; 13; 18; 3; 8; 17; 2; 7; 12]).
Proof. vm_compute. reflexivity. Qed.

Example hash_twenty_bytes_64 :
  Hash.DedupeHashFunc 64 (repeat x01 20)
  = Some (6181980153104295479,
          [6; 7; 15; 0; 5; 10; 15; 0; 5; 10; 15; 0; 5; 10; 15; 0]).
Proof. vm_compute. reflexivity. Qed.

(** A byte that is not sampled does not change the hash of a large
    array. *)
Example hash_twenty_bytes_unsampled :
  Hash.DedupeHashFunc 64 (x09 :: x09 :: repeat x01 18)
  = Hash.DedupeHashFunc 64 (x09 :: x08 :: repeat x01 18).
Proof. vm_compute. reflexivity. Qed.

(** An index outside the array is a failure of the model, not a byte. *)
Example at_index_outside :
  Hash.at_index 20 (repeat x01 20) [] = None.
Proof. reflexivity. Qed.

Example intern_twice :
  exists d,
    Dedupe.DeduplicateCode 32 [x01; x02] Dedupe.empty_sets = Some (0%nat, d)
    /\ Dedupe.DeduplicateCode 32 [x01; x02] d = Some (0%nat, d)
    /\ Dedupe.buffers (Dedupe.dedupe_code_ d) = [[x01; x02]]
    /\ Dedupe.buffers (Dedupe.dedupe_gc_map_ d) = [].
Proof. eexists. repeat split; vm_compute; reflexivity. Qed.

Example record_three_patches :
  Ledger.record_all
    [Ledger.CodePatch 7%nat 1 2 true 3 false 16;
     Ledger.ClassPatch 7%nat 1 2 5 24;
     Ledger.RelativeCodePatch 7%nat 1 4 true 6 true 32 (-8)]
    Ledger.no_patches
  = Ok {| Ledger.code_to_patch_ :=
            [Patch.PlainCall (Ledger.call_record 7%nat 1 2 true 3 false 16);
             Patch.RelativeCall
               {| Patch.relative_base :=
                    Ledger.call_record 7%nat 1 4 true 6 true 32;
                  Patch.offset_ := -8 |}];
          Ledger.methods_to_patch_ := [];
          Ledger.classes_to_patch_ :=
            [{| Patch.type_base := Ledger.base_record 7%nat 1 2 24;
                Patch.target_type_idx_ := 5 |}] |}.
Proof. reflexivity. Qed.

Example null_module_aborts :
  @Ledger.AddCodePatch nat bool None 1 2 true 3 false 16 Ledger.no_patches
  = Fatal "Check failed: dex_file_ != NULL".
Proof. reflexivity. Qed.

Example second_insertion_aborts :
  @Tables.run nat _ _ string string
    [Tables.PutMethod (1%nat, 5) "code"; Tables.PutMethod (1%nat, 5) "other"]
    Tables.no_artifacts
  = Fatal "duplicate compiled method".
Proof. vm_compute. reflexivity. Qed.

Example shadowed_class :
  Resolve.find_class "LX;"
    [{| Resolve.module_id := 1; Resolve.class_defs := ["LA;"];
        Resolve.references := [] |};
     {| Resolve.module_id := 2; Resolve.class_defs := ["LB;"; "LX;"];
        Resolve.references := [] |};
     {| Resolve.module_id := 3; Resolve.class_defs := ["LX;"];
        Resolve.references := ["LX;"] |}]
  = Some (2%nat, 1%nat).
Proof. reflexivity. Qed.

(** ** The properties of the driver *)

(** C3.  On an array of at most sixteen bytes, [DedupeHashFunc] starts from
    0x811c9dc5, multiplies by 16777619 and xors in every byte of the array
    in turn (it reads the positions 0 to size - 1, each once), and applies
    the final mixing.  Every byte goes into the hash: two such arrays that
    differ in one byte only have different hashes. *)
Theorem small_array_hash_folds_every_byte (bits : Z) (array : list byte) :
  32 <= bits -> (length array <= 16)%nat ->
  Hash.DedupeHashFunc bits array
  = Some (Hash.hash_every_byte bits array, Hash.zseq 0 (length array))
  /\ forall pre b b' suf,
       array = pre ++ b :: suf -> b <> b' ->
       fst <$> Hash.DedupeHashFunc bits (pre ++ b' :: suf)
       <> fst <$> Hash.DedupeHashFunc bits array.
Proof.
  intros Hbits Hlen. split; [now apply operator_call_small|].
  intros pre b b' suf -> Hne.
  rewrite !operator_call_small; try assumption.
  - simpl. intros [= Heq].
    now apply (hash_every_byte_sensitive bits Hbits pre b b' suf).
  - rewrite length_app in *. simpl in *. lia.
Qed.

Lemma small_array_hash_folds_every_byte_witness :
  32 <= 32 /\ (length [x01; x02; x03] <= 16)%nat
  /\ Hash.DedupeHashFunc 32 [x01; x02; x03]
     = Some (Hash.hash_every_byte 32 [x01; x02; x03], [0; 1; 2]).
Proof.
  assert (H1 : 32 <= 32) by lia.
  assert (H2 : (length [x01; x02; x03] <= 16)%nat) by (simpl; lia).
  split; [exact H1|]. split; [exact H2|].
  exact (proj1 (small_array_hash_folds_every_byte 32 [x01; x02; x03] H1 H2)).
Defined.

(** C4.  On an array of more than sixteen bytes, [DedupeHashFunc] reads
    sixteen positions: 6 and 7, then [(i * 1103515245 + 12345) % size] for
    [i] from 2 to 15, the product and the sum being those of [size_t] (they
    are the exact integers once [size_t] has 34 bits or more).  All sixteen
    lie inside the array, so the evaluation does not fail; they depend on
    the size only, and arrays of one size that agree at these positions,
    equal arrays among them, have the same hash. *)
Theorem large_array_hash_samples_in_bounds (bits : Z) (array : list byte) :
  32 <= bits -> (16 < length array)%nat ->
  Hash.DedupeHashFunc bits array
  = Some (Hash.hash_sampled bits array,
          Hash.sample_positions bits (Z.of_nat (length array)))
  /\ length (Hash.sample_positions bits (Z.of_nat (length array))) = 16%nat
  /\ Forall (fun p => 0 <= p < Z.of_nat (length array))
       (Hash.sample_positions bits (Z.of_nat (length array)))
  /\ (34 <= bits ->
      Hash.sample_positions bits (Z.of_nat (length array))
      = Hash.sample_positions_exact (Z.of_nat (length array)))
  /\ (forall array',
        length array' = length array ->
        (forall p,
           In p (Hash.sample_positions bits (Z.of_nat (length array))) ->
           Hash.byte_at array' p = Hash.byte_at array p) ->
        Hash.DedupeHashFunc bits array' = Hash.DedupeHashFunc bits array).
Proof.
  intros Hbits Hlen.
  split; [now apply operator_call_large|].
  split; [reflexivity|].
  split; [apply sample_positions_in_bounds; lia|].
  split; [intros H34; apply sample_positions_exact_eq; assumption|].
  intros array' Hlen' Hagree.
  rewrite !operator_call_large by (assumption || lia).
  rewrite Hlen'. f_equal. f_equal. now apply hash_sampled_agree.
Qed.

Lemma large_array_hash_samples_in_bounds_witness :
  32 <= 64 /\ (16 < length (repeat x2a 20))%nat
  /\ Hash.DedupeHashFunc 64 (repeat x2a 20)
     = Some (Hash.hash_sampled 64 (repeat x2a 20),
             [6; 7; 15; 0; 5; 10; 15; 0; 5; 10; 15; 0; 5; 10; 15; 0]).
Proof.
  assert (H1 : 32 <= 64) by lia.
  assert (H2 : (16 < length (repeat x2a 20))%nat) by (simpl; lia).
  split; [exact H1|]. split; [exact H2|].
  exact (proj1 (large_array_hash_samples_in_bounds 64 (repeat x2a 20) H1 H2)).
Defined.

(** C1.  Interning is idempotent and canonical.  After any run of
    interning calls, [DeduplicateCode] (and likewise
    [DeduplicateMappingTable], [DeduplicateVMapTable],
    [DeduplicateGCMap]) returns a handle to a buffer whose content is the
    bytes given; it returns the existing handle and leaves the sets as they
    are when the content is owned already, and allocates one buffer
    otherwise; interning the same content again, at once or after any
    further calls, returns the same handle and allocates nothing; no
    content is owned twice. *)
Theorem dedupe_intern_canonical (bits : Z) (kind : Dedupe.Kind)
    (b : list byte) (before after : list (Dedupe.Kind * list byte)) :
  32 <= bits ->
  exists d k d' d'',
    Dedupe.Deduplicate_all bits before Dedupe.empty_sets = Some d
    /\ Dedupe.Deduplicate bits kind b d = Some (k, d')
    /\ Dedupe.content (Dedupe.set_of kind d') k = Some b
    /\ (b ∈ Dedupe.buffers (Dedupe.set_of kind d) -> d' = d)
    /\ (b ∉ Dedupe.buffers (Dedupe.set_of kind d) ->
        Dedupe.buffers (Dedupe.set_of kind d')
        = Dedupe.buffers (Dedupe.set_of kind d) ++ [b])
    /\ Dedupe.Deduplicate bits kind b d' = Some (k, d')
    /\ Dedupe.Deduplicate_all bits after d' = Some d''
    /\ Dedupe.Deduplicate bits kind b d'' = Some (k, d'')
    /\ Dedupe.content (Dedupe.set_of kind d'') k = Some b
    /\ NoDup (Dedupe.buffers (Dedupe.set_of kind d'')).
Proof.
  intros Hbits.
  destruct (Deduplicate_all_spec bits Hbits before Dedupe.empty_sets
              (wf_empty_sets bits))
    as (d & Hbefore & Hwf & _).
  destruct (Deduplicate_spec bits Hbits kind b d Hwf)
    as (k & d' & HD & Hwf' & Hk & _ & _ & Hsame & Hnew).
  destruct (Deduplicate_all_spec bits Hbits after d' Hwf')
    as (d'' & Hafter & Hwf'' & Hkeep).
  exists d, k, d', d''.
  repeat (split; [assumption|]).
  split; [now apply Deduplicate_hit|].
  split; [assumption|].
  split; [apply Deduplicate_hit; auto|].
  split; [auto|]. apply Hwf''.
Qed.

Lemma dedupe_intern_canonical_witness :
  32 <= 32
  /\ exists d k d' d'',
       Dedupe.Deduplicate_all 32 [(Dedupe.MappingTable, [x01])]
         Dedupe.empty_sets = Some d
       /\ Dedupe.Deduplicate 32 Dedupe.Code [x01; x02] d = Some (k, d')
       /\ Dedupe.content (Dedupe.set_of Dedupe.Code d') k = Some [x01; x02]
       /\ ([x01; x02] ∈ Dedupe.buffers (Dedupe.set_of Dedupe.Code d) ->
           d' = d)
       /\ ([x01; x02] ∉ Dedupe.buffers (Dedupe.set_of Dedupe.Code d) ->
           Dedupe.buffers (Dedupe.set_of Dedupe.Code d')
           = Dedupe.buffers (Dedupe.set_of Dedupe.Code d) ++ [[x01; x02]])
       /\ Dedupe.Deduplicate 32 Dedupe.Code [x01; x02] d' = Some (k, d')
       /\ Dedupe.Deduplicate_all 32 [(Dedupe.Code, [x03])] d' = Some d''
       /\ Dedupe.Deduplicate 32 Dedupe.Code [x01; x02] d'' = Some (k, d'')
       /\ Dedupe.content (Dedupe.set_of Dedupe.Code d'') k
          = Some [x01; x02]
       /\ NoDup (Dedupe.buffers (Dedupe.set_of Dedupe.Code d'')).
Proof.
  split; [lia|].
  apply (dedupe_intern_canonical 32 Dedupe.Code [x01; x02]
           [(Dedupe.MappingTable, [x01])] [(Dedupe.Code, [x03])]).
  lia.
Defined.

(** C2.  Artifacts are inserted at most once per reference.  A run of
    insertions from empty tables ends without a fatal error exactly when no
    class reference and no method reference occurs twice in it; then
    [GetCompiledClass] and [GetCompiledMethod] return the one artifact
    stored for a reference, and nothing for a reference nothing was stored
    for.  An insertion for a reference that has an artifact is a fatal
    error and overwrites nothing. *)
Theorem artifact_insertion_at_most_once
    {DexFile : Type} `{Countable DexFile} {CompiledClass CompiledMethod : Type}
    (insertions : list (@Tables.Insertion DexFile CompiledClass CompiledMethod)) :
  (forall t,
     Tables.run insertions Tables.no_artifacts = Ok t ->
     NoDup (Tables.class_insertions insertions).*1
     /\ NoDup (Tables.method_insertions insertions).*1
     /\ (forall ref a,
           Tables.GetCompiledClass ref t = Some a <->
           (ref, a) ∈ Tables.class_insertions insertions)
     /\ (forall ref a,
           Tables.GetCompiledMethod ref t = Some a <->
           (ref, a) ∈ Tables.method_insertions insertions)
     /\ (forall ref,
           Tables.GetCompiledClass ref t = None <->
           ref ∉ (Tables.class_insertions insertions).*1)
     /\ (forall ref,
           Tables.GetCompiledMethod ref t = None <->
           ref ∉ (Tables.method_insertions insertions).*1))
  /\ (NoDup (Tables.class_insertions insertions).*1 ->
      NoDup (Tables.method_insertions insertions).*1 ->
      exists t, Tables.run insertions Tables.no_artifacts = Ok t)
  /\ (~ (NoDup (Tables.class_insertions insertions).*1
         /\ NoDup (Tables.method_insertions insertions).*1) ->
      exists msg, Tables.run insertions Tables.no_artifacts = Fatal msg)
  /\ (forall (t : @Tables.ArtifactTables DexFile _ _ CompiledClass
                    CompiledMethod) ref a a',
        Tables.GetCompiledClass ref t = Some a ->
        exists msg, Tables.put_class ref a' t = Fatal msg)
  /\ (forall (t : @Tables.ArtifactTables DexFile _ _ CompiledClass
                    CompiledMethod) ref a a',
        Tables.GetCompiledMethod ref t = Some a ->
        exists msg, Tables.put_method ref a' t = Fatal msg).
Proof.
  assert (Hinv : forall t,
             Tables.run insertions Tables.no_artifacts = Ok t ->
             NoDup (Tables.class_insertions insertions).*1
             /\ NoDup (Tables.method_insertions insertions).*1
             /\ (forall ref a,
                   Tables.GetCompiledClass ref t = Some a <->
                   (ref, a) ∈ Tables.class_insertions insertions)
             /\ (forall ref a,
                   Tables.GetCompiledMethod ref t = Some a <->
                   (ref, a) ∈ Tables.method_insertions insertions)).
  { intros t Hrun.
    apply run_Ok_inv in Hrun as [(Hc & _ & Hgc) (Hm & _ & Hgm)].
    split; [exact Hc|]. split; [exact Hm|].
    split; intros ref a; [rewrite Hgc|rewrite Hgm];
      unfold Tables.GetCompiledClass, Tables.GetCompiledMethod; simpl;
      rewrite lookup_empty; intuition discriminate. }
  split; [|split; [|split; [|split]]].
  - intros t Hrun. destruct (Hinv t Hrun) as (Hc & Hm & Hgc & Hgm).
    repeat (split; [assumption|]).
    split; intros ref.
    + rewrite eq_None_not_Some, list_elem_of_fmap.
      split.
      * intros Hnone [[ref' a] [-> Hin]]. apply Hnone. exists a.
        now apply Hgc.
      * intros Hnotin [a Ha]. apply Hnotin. exists (ref, a).
        split; [reflexivity|]. now apply Hgc.
    + rewrite eq_None_not_Some, list_elem_of_fmap.
      split.
      * intros Hnone [[ref' a] [-> Hin]]. apply Hnone. exists a.
        now apply Hgm.
      * intros Hnotin [a Ha]. apply Hnotin. exists (ref, a).
        split; [reflexivity|]. now apply Hgm.
  - intros Hc Hm. apply run_total; auto.
  - intros Hdup.
    destruct (Tables.run insertions Tables.no_artifacts) as [t|msg] eqn:Hrun.
    + destruct (Hinv t eq_refl) as (Hc & Hm & _). now destruct Hdup.
    + now exists msg.
  - intros t ref a a' Hget. eexists. now apply put_class_twice with a.
  - intros t ref a a' Hget. eexists. now apply put_method_twice with a.
Qed.

Lemma artifact_insertion_at_most_once_witness :
  let insertions : list (@Tables.Insertion nat string string) :=
    [Tables.PutClass (1%nat, 0) "verified";
     Tables.PutMethod (1%nat, 5) "code"] in
  NoDup (Tables.class_insertions insertions).*1
  /\ NoDup (Tables.method_insertions insertions).*1
  /\ exists t, Tables.run insertions Tables.no_artifacts = Ok t
              /\ Tables.GetCompiledMethod (1%nat, 5) t = Some "code"
              /\ Tables.GetCompiledMethod (1%nat, 6) t = None.
Proof.
  intros insertions.
  assert (Hc : NoDup (Tables.class_insertions insertions).*1)
    by (repeat constructor; intros Hin; now apply elem_of_nil in Hin).
  assert (Hm : NoDup (Tables.method_insertions insertions).*1)
    by (repeat constructor; intros Hin; now apply elem_of_nil in Hin).
  split; [exact Hc|]. split; [exact Hm|].
  destruct (artifact_insertion_at_most_once insertions)
    as (Hinv & Htotal & _).
  destruct (Htotal Hc Hm) as [t Hrun].
  exists t. split; [exact Hrun|].
  destruct (Hinv t Hrun) as (_ & _ & _ & Hget & _ & Hnone).
  split.
  - apply Hget. apply elem_of_cons; left. reflexivity.
  - apply Hnone. intros Hin. apply list_elem_of_singleton in Hin.
    discriminate Hin.
Defined.

(** C5.  The lists of patches are append-only and keep insertion order.
    Each of [AddCodePatch], [AddRelativeCodePatch], [AddMethodPatch] and
    [AddClassPatch] appends one record at the end of its list and leaves
    every recorded entry and the two other lists as they were; after any
    sequence of such calls [GetCodeToPatch], [GetMethodsToPatch] and
    [GetClassesToPatch] return what was there before followed by the
    records of the calls, in the order of the calls. *)
Theorem patch_ledger_append_only {DexFile InvokeType : Type}
    (reqs : list (@Ledger.PatchRequest DexFile InvokeType))
    (d : @Ledger.PatchLists DexFile InvokeType) :
  (forall req,
     exists d',
       Ledger.record req d = Ok d'
       /\ Ledger.GetCodeToPatch d'
          = Ledger.GetCodeToPatch d ++ Ledger.code_entry req
       /\ Ledger.GetMethodsToPatch d'
          = Ledger.GetMethodsToPatch d ++ Ledger.method_entry req
       /\ Ledger.GetClassesToPatch d'
          = Ledger.GetClassesToPatch d ++ Ledger.class_entry req
       /\ (length (Ledger.code_entry req) + length (Ledger.method_entry req)
           + length (Ledger.class_entry req) = 1)%nat)
  /\ exists d',
       Ledger.record_all reqs d = Ok d'
       /\ Ledger.GetCodeToPatch d'
          = Ledger.GetCodeToPatch d ++ flat_map Ledger.code_entry reqs
       /\ Ledger.GetMethodsToPatch d'
          = Ledger.GetMethodsToPatch d ++ flat_map Ledger.method_entry reqs
       /\ Ledger.GetClassesToPatch d'
          = Ledger.GetClassesToPatch d ++ flat_map Ledger.class_entry reqs.
Proof.
  split.
  - intros req. eexists. split; [apply record_spec|].
    repeat (split; [reflexivity|]). apply record_one_entry.
  - eexists. split; [apply record_all_spec|]. repeat split.
Qed.

(** C6.  A call patch returns what it was constructed with.  For a module
    that is not NULL the constructor succeeds, and [GetDexFile],
    [GetReferrerClassDefIdx], [GetReferrerMethodIdx],
    [GetReferrerInvokeType], [GetTargetMethodIdx], [GetTargetInvokeType]
    and [GetLiteralOffset] return the arguments of the constructor, for the
    absolute and for the relative form.  The members are [const] and the
    record is a value: the classes have no operation that returns a
    changed record. *)
Theorem call_patch_getters_round_trip {DexFile InvokeType : Type}
    (dex_file : DexFile) (referrer_class_def_idx referrer_method_idx : Z)
    (referrer_invoke_type : InvokeType) (target_method_idx : Z)
    (target_invoke_type : InvokeType)
    (literal_offset pc_relative_offset : Z) :
  (exists c,
     Patch.new_CallPatchInformation (Some dex_file) referrer_class_def_idx
       referrer_method_idx referrer_invoke_type target_method_idx
       target_invoke_type literal_offset = Ok c
     /\ Patch.GetDexFile (Patch.CallPatch (Patch.PlainCall c)) = Some dex_file
     /\ Patch.GetReferrerClassDefIdx (Patch.CallPatch (Patch.PlainCall c))
        = referrer_class_def_idx
     /\ Patch.GetReferrerMethodIdx (Patch.CallPatch (Patch.PlainCall c))
        = referrer_method_idx
     /\ Patch.GetReferrerInvokeType (Patch.PlainCall c) = referrer_invoke_type
     /\ Patch.GetTargetMethodIdx (Patch.PlainCall c) = target_method_idx
     /\ Patch.GetTargetInvokeType (Patch.PlainCall c) = target_invoke_type
     /\ Patch.GetLiteralOffset (Patch.CallPatch (Patch.PlainCall c))
        = literal_offset)
  /\ (exists r,
        Patch.new_RelativeCallPatchInformation (Some dex_file)
          referrer_class_def_idx referrer_method_idx referrer_invoke_type
          target_method_idx target_invoke_type literal_offset
          pc_relative_offset = Ok r
        /\ Patch.GetDexFile (Patch.CallPatch (Patch.RelativeCall r))
           = Some dex_file
        /\ Patch.GetReferrerClassDefIdx (Patch.CallPatch (Patch.RelativeCall r))
           = referrer_class_def_idx
        /\ Patch.GetReferrerMethodIdx (Patch.CallPatch (Patch.RelativeCall r))
           = referrer_method_idx
        /\ Patch.GetReferrerInvokeType (Patch.RelativeCall r)
           = referrer_invoke_type
        /\ Patch.GetTargetMethodIdx (Patch.RelativeCall r) = target_method_idx
        /\ Patch.GetTargetInvokeType (Patch.RelativeCall r)
           = target_invoke_type
        /\ Patch.GetLiteralOffset (Patch.CallPatch (Patch.RelativeCall r))
           = literal_offset).
Proof.
  split; eexists; (split; [reflexivity|]); repeat split.
Qed.

(** C7.  A call patch constructed without a displacement answers
    [IsRelative() = false] and [RelativeOffset() = 0]; a call patch
    constructed with the displacement [d] answers [IsRelative() = true] and
    [RelativeOffset() = d]. *)
Theorem call_patch_relative_form {DexFile InvokeType : Type}
    (dex_file : DexFile) (referrer_class_def_idx referrer_method_idx : Z)
    (referrer_invoke_type : InvokeType) (target_method_idx : Z)
    (target_invoke_type : InvokeType) (literal_offset d : Z) :
  (exists c,
     Patch.new_CallPatchInformation (Some dex_file) referrer_class_def_idx
       referrer_method_idx referrer_invoke_type target_method_idx
       target_invoke_type literal_offset = Ok c
     /\ Patch.IsRelative (Patch.PlainCall c) = false
     /\ Patch.RelativeOffset (Patch.PlainCall c) = 0)
  /\ (exists r,
        Patch.new_RelativeCallPatchInformation (Some dex_file)
          referrer_class_def_idx referrer_method_idx referrer_invoke_type
          target_method_idx target_invoke_type literal_offset d = Ok r
        /\ Patch.IsRelative (Patch.RelativeCall r) = true
        /\ Patch.RelativeOffset (Patch.RelativeCall r) = d).
Proof.
  split; eexists; (split; [reflexivity|]); split; reflexivity.
Qed.

(** C8.  Resolution follows the order of the modules.  When [A] is the
    first module of the list that defines [X] and a later module [B]
    defines [X] too, looking [X] up yields the definition of [A] and not
    that of [B]; and whatever order the resolution tasks of the modules run
    in, the cache holds the definition of [A] for every module that refers
    to [X]. *)
Theorem resolution_follows_module_order
    (pre rest : list Resolve.DexModule) (A B : Resolve.DexModule)
    (X : string) (idxA idxB : nat) :
  (forall m, m ∈ pre -> Resolve.defines m X = None) ->
  Resolve.defines A X = Some idxA ->
  B ∈ rest ->
  Resolve.defines B X = Some idxB ->
  Resolve.find_class X (pre ++ A :: rest) = Some (Resolve.module_id A, idxA)
  /\ (Resolve.module_id A <> Resolve.module_id B ->
      Resolve.find_class X (pre ++ A :: rest)
      <> Some (Resolve.module_id B, idxB))
  /\ (forall schedules r,
        Resolve.schedules_of (pre ++ A :: rest) schedules ->
        r ∈ pre ++ A :: rest ->
        X ∈ Resolve.references r ->
        Resolve.Resolve (pre ++ A :: rest) schedules
          !! (Resolve.module_id r, X)
        = Some (Resolve.module_id A, idxA)).
Proof.
  intros Hpre HA HB HBX.
  pose proof (find_class_first pre A rest X idxA Hpre HA) as Hfirst.
  split; [exact Hfirst|]. split.
  - rewrite Hfirst. intros Hne [= Hid _]. contradiction.
  - intros schedules r Hsch Hr HX.
    assert (Hsome : is_Some (Resolve.Resolve (pre ++ A :: rest) schedules
                               !! (Resolve.module_id r, X))).
    { unfold Resolve.Resolve. apply resolve_each_stores;
        [exact Hsch|exact Hr|exact HX|].
      rewrite Hfirst. eauto. }
    destruct Hsome as [def Hdef]. rewrite Hdef.
    assert (Hsound : Resolve.cache_sound (pre ++ A :: rest)
                       (Resolve.Resolve (pre ++ A :: rest) schedules)).
    { unfold Resolve.Resolve. apply resolve_each_sound.
      intros key d Hkey. now rewrite lookup_empty in Hkey. }
    apply Hsound in Hdef. simpl in Hdef. congruence.
Qed.

Lemma resolution_follows_module_order_witness :
  let A := {| Resolve.module_id := 1; Resolve.class_defs := ["LX;"];
              Resolve.references := [] |} in
  let B := {| Resolve.module_id := 2; Resolve.class_defs := ["LY;"; "LX;"];
              Resolve.references := ["LX;"; "LY;"] |} in
  Resolve.find_class "LX;" [A; B] = Some (1%nat, 0%nat)
  /\ Resolve.Resolve [A; B] [[]; ["LY;"; "LX;"]] !! (2%nat, "LX;")
     = Some (1%nat, 0%nat).
Proof.
  intros A B.
  assert (Hpre : forall m, m ∈ [] -> Resolve.defines m "LX;" = None)
    by (intros m Hm; now apply elem_of_nil in Hm).
  assert (HA : Resolve.defines A "LX;" = Some 0%nat) by reflexivity.
  assert (HB : B ∈ [B]) by (apply list_elem_of_singleton; reflexivity).
  assert (HBX : Resolve.defines B "LX;" = Some 1%nat) by reflexivity.
  destruct (resolution_follows_module_order [] [B] A B "LX;" 0 1
              Hpre HA HB HBX) as (Hfind & _ & Hcache).
  split; [exact Hfind|].
  apply (Hcache [[]; ["LY;"; "LX;"]] B).
  - repeat constructor.
  - apply elem_of_cons; right. exact HB.
  - apply elem_of_cons; left. reflexivity.
Defined.

(** C9.  Without a set of image classes every descriptor is an image
    class; with a set, the image classes are the descriptors in the
    set. *)
Theorem image_class_policy (descriptor : string) :
  Image.IsImageClass None descriptor = true
  /\ forall classes : gset string,
       Image.IsImageClass (Some classes) descriptor = true
       <-> descriptor ∈ classes.
Proof.
  split; [reflexivity|]. intros classes. simpl. apply bool_decide_eq_true.
Qed.

(** C10.  The tags of a patch record exclude each other, and a cast to the
    other variant is fatal.  [IsCall()] and [IsType()] are never both true:
    a call patch answers true and false, a type patch false and true.
    [AsCall()] on a record whose [IsCall()] is false and [AsType()] on a
    record whose [IsType()] is false end in [LOG(FATAL)]; on the other
    records they return the record.  Every constructor aborts on a NULL
    module. *)
Theorem patch_variant_tags_exclusive {DexFile InvokeType : Type}
    (o : @Patch.PatchObject DexFile InvokeType) :
  Patch.IsCall o && Patch.IsType o = false
  /\ (forall c : @Patch.CallObject DexFile InvokeType,
        Patch.IsCall (Patch.CallPatch c) = true
        /\ Patch.IsType (Patch.CallPatch c) = false
        /\ Patch.AsCall (Patch.CallPatch c) = Ok c)
  /\ (forall t : @Patch.TypePatchInformation DexFile,
        Patch.IsCall (@Patch.TypePatch DexFile InvokeType t) = false
        /\ Patch.IsType (@Patch.TypePatch DexFile InvokeType t) = true
        /\ Patch.AsType (@Patch.TypePatch DexFile InvokeType t) = Ok t)
  /\ (Patch.IsCall o = false -> Patch.AsCall o = Fatal "Unreachable")
  /\ (Patch.IsType o = false -> Patch.AsType o = Fatal "Unreachable")
  /\ (forall c m l,
        exists msg,
          @Patch.new_PatchInformation DexFile None c m l = Fatal msg)
  /\ (forall c m (ri : InvokeType) t ti l,
        exists msg,
          @Patch.new_CallPatchInformation DexFile InvokeType None c m ri t ti l
          = Fatal msg)
  /\ (forall c m (ri : InvokeType) t ti l d,
        exists msg,
          @Patch.new_RelativeCallPatchInformation DexFile InvokeType None
            c m ri t ti l d = Fatal msg)
  /\ (forall c m t l,
        exists msg,
          @Patch.new_TypePatchInformation DexFile None c m t l = Fatal msg).
Proof.
  split; [now destruct o|].
  split; [now intros c|].
  split; [now intros t|].
  split; [destruct o; simpl; intros; congruence|].
  split; [destruct o; simpl; intros; congruence|].
  repeat split; intros; eexists; reflexivity.
Qed.

Lemma patch_variant_tags_exclusive_witness :
  let o : @Patch.PatchObject nat bool :=
    Patch.TypePatch
      {| Patch.type_base :=
           {| Patch.dex_file_ := Some 7%nat;
              Patch.referrer_class_def_idx_ := 1;
              Patch.referrer_method_idx_ := 2;
              Patch.literal_offset_ := 8 |};
         Patch.target_type_idx_ := 3 |} in
  Patch.IsCall o = false /\ Patch.AsCall o = Fatal "Unreachable".
Proof.
  intros o.
  assert (Hcall : Patch.IsCall o = false) by reflexivity.
  split; [exact Hcall|].
  destruct (patch_variant_tags_exclusive o) as (_ & _ & _ & HAsCall & _).
  exact (HAsCall Hcall).
Defined.


(** ** Further facts on DedupeHashFunc *)

Section HashSampling.

Import Hash.

Variable bits : Z.
Hypothesis size_t_width : 32 <= bits.

Lemma zseq_length lo n : length (zseq lo n) = n.
Proof. revert lo. induction n as [|n IH]; intros lo; simpl; auto. Qed.

Lemma zseq_bounds n :
  forall lo, Forall (fun p => lo <= p < lo + Z.of_nat n) (zseq lo n).
Proof.
  induction n as [|n IH]; intros lo; simpl; constructor; [lia|].
  eapply Forall_impl; [apply IH|]. intros p Hp. simpl in Hp. lia.
Qed.

Lemma zseq_NoDup n : forall lo, NoDup (zseq lo n).
Proof.
  induction n as [|n IH]; intros lo; simpl; constructor; [|apply IH].
  intros Hin. pose proof (zseq_bounds n (lo + 1)) as Hb.
  rewrite Forall_forall in Hb. apply Hb in Hin. lia.
Qed.

Lemma final_mix_word h : in_word bits (final_mix bits h).
Proof. unfold final_mix. cbv zeta. apply add_shl_word. exact size_t_width. Qed.

Lemma fold_positions_word array positions :
  forall h, in_word bits h ->
            in_word bits (fold_positions bits array positions h).
Proof.
  unfold fold_positions.
  induction positions as [|p positions IH]; intros h Hh; simpl; [exact Hh|].
  apply IH. unfold byte_at. now apply fnv_step_word.
Qed.

Lemma fold_positions_inj array positions :
  forall h1 h2, in_word bits h1 -> in_word bits h2 ->
    fold_positions bits array positions h1
    = fold_positions bits array positions h2 ->
    h1 = h2.
Proof.
  unfold fold_positions.
  induction positions as [|p positions IH]; intros h1 h2 H1 H2 H;
    simpl in H; [exact H|].
  apply IH in H; try (unfold byte_at; now apply fnv_step_word).
  now apply (fnv_step_inj_hash bits size_t_width) in H.
Qed.

Lemma fold_positions_agree array array' positions :
  (forall q, In q positions -> byte_at array' q = byte_at array q) ->
  forall h, fold_positions bits array' positions h
            = fold_positions bits array positions h.
Proof.
  unfold fold_positions.
  induction positions as [|p positions IH]; intros Hagree h; [reflexivity|].
  simpl. rewrite (Hagree p) by (now left).
  apply IH. intros q Hq. apply Hagree. now right.
Qed.

Lemma fold_positions_app array l1 l2 h :
  fold_positions bits array (l1 ++ l2) h
  = fold_positions bits array l2 (fold_positions bits array l1 h).
Proof. unfold fold_positions. apply fold_left_app. Qed.

Lemma fold_positions_cons array p l h :
  fold_positions bits array (p :: l) h
  = fold_positions bits array l (fnv_step bits h (byte_at array p)).
Proof. reflexivity. Qed.

(** Writing the byte at [p] changes no other byte. *)
Lemma byte_at_insert_ne (array : list byte) (p : nat) b q :
  0 <= q -> q <> Z.of_nat p ->
  byte_at (<[p := b]> array) q = byte_at array q.
Proof.
  intros Hq Hne. unfold byte_at. rewrite !nth_lookup.
  rewrite list_lookup_insert_ne by lia. reflexivity.
Qed.

Lemma byte_at_insert_eq (array : list byte) (p : nat) b :
  (p < length array)%nat ->
  byte_at (<[p := b]> array) (Z.of_nat p) = byte_val b.
Proof.
  intros Hp. unfold byte_at. rewrite Nat2Z.id, nth_lookup.
  rewrite list_lookup_insert_eq by assumption. reflexivity.
Qed.

Lemma byte_at_lookup (array : list byte) (p : nat) b :
  array !! p = Some b -> byte_at array (Z.of_nat p) = byte_val b.
Proof.
  intros Hp. unfold byte_at. rewrite Nat2Z.id, nth_lookup, Hp. reflexivity.
Qed.

(** Sixteen reads cannot cover seventeen positions. *)
Lemma unsampled_position sz :
  exists p : nat,
    (p < 17)%nat /\ ~ In (Z.of_nat p) (sample_positions bits sz).
Proof.
  destruct (decide (Forall (fun i => i ∈ sample_positions bits sz)
                      (zseq 0 17))) as [Hall|Hnot].
  - exfalso.
    assert (Hsub : zseq 0 17 ⊆+ sample_positions bits sz).
    { apply NoDup_submseteq; [apply zseq_NoDup|].
      now apply Forall_forall. }
    apply submseteq_length in Hsub.
    rewrite zseq_length, sample_positions_length in Hsub. lia.
  - apply not_Forall_Exists in Hnot; [|intros i; apply _].
    apply Exists_exists in Hnot. destruct Hnot as (i & Hi & Hout).
    pose proof (zseq_bounds 17 0) as Hb. rewrite Forall_forall in Hb.
    apply Hb in Hi. exists (Z.to_nat i). split; [lia|].
    rewrite Z2Nat.id by lia. intros Hin. apply Hout.
    now apply list_elem_of_In.
Qed.

End HashSampling.

(** ** Further properties of the driver *)

(** X1.  On every array, the empty one included, [DedupeHashFunc] returns
    a hash without indexing outside the array, and it reads the smaller of
    the size and sixteen bytes. *)
Theorem hash_reads_at_most_sixteen (bits : Z) (array : list byte) :
  32 <= bits ->
  exists h log,
    Hash.DedupeHashFunc bits array = Some (h, log)
    /\ length log = Nat.min (length array) 16
    /\ Forall (fun p => 0 <= p < Z.of_nat (length array)) log.
Proof.
  intros Hbits.
  destruct (le_lt_dec (length array) 16) as [Hsmall|Hlarge].
  - eexists _, _. split; [now apply operator_call_small|].
    split; [rewrite zseq_length; lia|].
    eapply Forall_impl; [apply zseq_bounds|]. intros p Hp. simpl in Hp. lia.
  - eexists _, _. split; [now apply operator_call_large|].
    split; [rewrite sample_positions_length; lia|].
    apply sample_positions_in_bounds. lia.
Qed.

Lemma hash_reads_at_most_sixteen_witness :
  32 <= 32
  /\ exists h log,
       Hash.DedupeHashFunc 32 [] = Some (h, log)
       /\ length log = Nat.min (length (@nil byte)) 16
       /\ Forall (fun p => 0 <= p < Z.of_nat (length (@nil byte))) log.
Proof.
  assert (H1 : 32 <= 32) by lia.
  split; [exact H1|]. exact (hash_reads_at_most_sixteen 32 [] H1).
Defined.

(** X2.  The hash is a value of [size_t]: it is not negative and below
    [2 ^ bits], whatever the array. *)
Theorem hash_fits_size_t (bits : Z) (array : list byte) (h : Z)
    (log : list Z) :
  32 <= bits ->
  Hash.DedupeHashFunc bits array = Some (h, log) ->
  0 <= h < 2 ^ bits.
Proof.
  intros Hbits Hh.
  destruct (le_lt_dec (length array) 16) as [Hsmall|Hlarge].
  - rewrite operator_call_small in Hh by assumption.
    injection Hh as <- _. apply (final_mix_word bits Hbits).
  - rewrite operator_call_large in Hh by assumption.
    injection Hh as <- _. apply (final_mix_word bits Hbits).
Qed.

Lemma hash_fits_size_t_witness :
  32 <= 32
  /\ Hash.DedupeHashFunc 32 [x01; x02] = Some (1447052281, [0; 1])
  /\ 0 <= 1447052281 < 2 ^ 32.
Proof.
  assert (H1 : 32 <= 32) by lia.
  assert (H2 : Hash.DedupeHashFunc 32 [x01; x02]
               = Some (1447052281, [0; 1])) by (vm_compute; reflexivity).
  split; [exact H1|]. split; [exact H2|].
  exact (hash_fits_size_t 32 [x01; x02] 1447052281 [0; 1] H1 H2).
Defined.

(** X3.  The five closing statements of the hash map [size_t] values to
    [size_t] values one-to-one: two accumulators that differ give hashes
    that differ. *)
Theorem final_mix_one_to_one (bits h1 h2 : Z) :
  32 <= bits ->
  0 <= h1 < 2 ^ bits -> 0 <= h2 < 2 ^ bits ->
  (0 <= Hash.final_mix bits h1 < 2 ^ bits)
  /\ (Hash.final_mix bits h1 = Hash.final_mix bits h2 -> h1 = h2).
Proof.
  intros Hbits H1 H2. split.
  - apply (final_mix_word bits Hbits).
  - now apply final_mix_inj.
Qed.

Lemma final_mix_one_to_one_witness :
  32 <= 32 /\ 0 <= 5 < 2 ^ 32 /\ 0 <= 9 < 2 ^ 32
  /\ (Hash.final_mix 32 5 = Hash.final_mix 32 9 -> 5 = 9).
Proof.
  assert (H0 : 32 <= 32) by lia.
  assert (H1 : 0 <= 5 < 2 ^ 32) by (change (2 ^ 32) with 4294967296; lia).
  assert (H2 : 0 <= 9 < 2 ^ 32) by (change (2 ^ 32) with 4294967296; lia).
  split; [exact H0|]. split; [exact H1|]. split; [exact H2|].
  exact (proj2 (final_mix_one_to_one 32 5 9 H0 H1 H2)).
Defined.

(** X4.  The sampling leaves bytes out: in every array of more than
    sixteen bytes one of the first seventeen bytes is never read, and
    whatever is written there the hash and the positions read stay the
    same. *)
Theorem large_array_has_unsampled_byte (bits : Z) (array : list byte) :
  32 <= bits -> (16 < length array)%nat ->
  exists p : nat,
    (p < 17)%nat
    /\ forall b,
         Hash.DedupeHashFunc bits (<[p := b]> array)
         = Hash.DedupeHashFunc bits array.
Proof.
  intros Hbits Hlen.
  destruct (unsampled_position bits (Z.of_nat (length array)))
    as (p & Hp & Hout).
  exists p. split; [exact Hp|]. intros b.
  rewrite !operator_call_large by (rewrite ?length_insert; assumption).
  rewrite length_insert. f_equal. f_equal.
  apply hash_sampled_agree; [apply length_insert|].
  intros q Hq. apply byte_at_insert_ne.
  - pose proof (sample_positions_in_bounds bits
                  (Z.of_nat (length array))) as Hb.
    rewrite Forall_forall in Hb. apply list_elem_of_In in Hq.
    apply Hb in Hq; lia.
  - intros ->. contradiction.
Qed.

Lemma large_array_has_unsampled_byte_witness :
  32 <= 64 /\ (16 < length (repeat x2a 20))%nat
  /\ exists p : nat,
       (p < 17)%nat
       /\ forall b,
            Hash.DedupeHashFunc 64 (<[p := b]> (repeat x2a 20))
            = Hash.DedupeHashFunc 64 (repeat x2a 20).
Proof.
  assert (H1 : 32 <= 64) by lia.
  assert (H2 : (16 < length (repeat x2a 20))%nat) by (simpl; lia).
  split; [exact H1|]. split; [exact H2|].
  exact (large_array_has_unsampled_byte 64 (repeat x2a 20) H1 H2).
Defined.

(** A byte that enters the fold once, between positions where two arrays
    agree, separates their hashes. *)
Lemma fold_positions_separates (bits : Z) (array array' : list byte)
    l1 l2 P b b' h :
  32 <= bits ->
  (forall q, In q l1 -> Hash.byte_at array' q = Hash.byte_at array q) ->
  (forall q, In q l2 -> Hash.byte_at array' q = Hash.byte_at array q) ->
  Hash.byte_at array' P = byte_val b' ->
  Hash.byte_at array P = byte_val b ->
  b <> b' -> in_word bits h ->
  Hash.final_mix bits (Hash.fold_positions bits array' (l1 ++ P :: l2) h)
  <> Hash.final_mix bits (Hash.fold_positions bits array (l1 ++ P :: l2) h).
Proof.
  intros Hbits Hagree1 Hagree2 HP' HP Hne Hh Heq.
  apply (final_mix_inj bits Hbits) in Heq;
    [|apply fold_positions_word; assumption..].
  rewrite !fold_positions_app, !fold_positions_cons in Heq.
  rewrite (fold_positions_agree bits array array' l1 Hagree1) in Heq.
  rewrite (fold_positions_agree bits array array' l2 Hagree2) in Heq.
  rewrite HP', HP in Heq.
  set (H := Hash.fold_positions bits array l1 h) in Heq.
  assert (Hstep : Hash.fnv_step bits H (byte_val b')
                  = Hash.fnv_step bits H (byte_val b)).
  { apply (fold_positions_inj bits Hbits array l2);
      [apply fnv_step_word; exact Hbits..|exact Heq]. }
  apply (fnv_step_inj_byte bits H) in Hstep.
  apply byte_val_inj in Hstep. congruence.
Qed.

Lemma once_sampled_split (l : list Z) (P : Z) :
  count_occ Z.eq_dec l P = 1%nat ->
  exists l1 l2, l = l1 ++ P :: l2 /\ ~ In P l1 /\ ~ In P l2.
Proof.
  intros Hcount.
  assert (Hin : In P l) by (apply (count_occ_In Z.eq_dec); lia).
  apply in_split in Hin. destruct Hin as (l1 & l2 & ->).
  exists l1, l2. split; [reflexivity|].
  rewrite count_occ_app, count_occ_cons_eq in Hcount by reflexivity.
  split; apply (count_occ_not_In Z.eq_dec); lia.
Qed.

(** X5.  A byte that is sampled once counts: when a position occurs once
    among the sixteen sampled positions of an array of more than sixteen
    bytes, writing another byte there changes the hash. *)
Theorem large_array_once_sampled_byte_matters (bits : Z)
    (array : list byte) (p : nat) (b b' : byte) :
  32 <= bits -> (16 < length array)%nat ->
  count_occ Z.eq_dec
    (Hash.sample_positions bits (Z.of_nat (length array))) (Z.of_nat p) = 1%nat ->
  array !! p = Some b -> b <> b' ->
  fst <$> Hash.DedupeHashFunc bits (<[p := b']> array)
  <> fst <$> Hash.DedupeHashFunc bits array.
Proof.
  intros Hbits Hlen Hcount Hp Hne.
  assert (Hlen' : (16 < length (<[p := b']> array))%nat)
    by (rewrite length_insert; exact Hlen).
  rewrite (operator_call_large bits Hbits array Hlen).
  rewrite (operator_call_large bits Hbits (<[p := b']> array) Hlen').
  change (Some (Hash.hash_sampled bits (<[p := b']> array))
          <> Some (Hash.hash_sampled bits array)).
  intros Heq. apply (inj Some) in Heq. revert Heq.
  unfold Hash.hash_sampled. rewrite length_insert.
  assert (Hbounds : Forall (fun q => 0 <= q < Z.of_nat (length array))
                      (Hash.sample_positions bits (Z.of_nat (length array))))
    by (apply sample_positions_in_bounds; lia).
  destruct (once_sampled_split _ _ Hcount) as (l1 & l2 & Hsplit & Hl1 & Hl2).
  revert Hbounds. rewrite Hsplit. clear Hsplit Hcount. intros Hbounds.
  rewrite Forall_forall in Hbounds.
  apply (fold_positions_separates bits array (<[p := b']> array) l1 l2
           (Z.of_nat p) b b').
  - exact Hbits.
  - intros q Hq. apply byte_at_insert_ne.
    + assert (Hq' : q ∈ l1 ++ Z.of_nat p :: l2)
        by (apply list_elem_of_In, in_or_app; now left).
      apply Hbounds in Hq'. lia.
    + intros ->. contradiction.
  - intros q Hq. apply byte_at_insert_ne.
    + assert (Hq' : q ∈ l1 ++ Z.of_nat p :: l2)
        by (apply list_elem_of_In, in_or_app; right; now right).
      apply Hbounds in Hq'. lia.
    + intros ->. contradiction.
  - apply byte_at_insert_eq. now apply lookup_lt_Some in Hp.
  - now apply byte_at_lookup.
  - intros Heq. now apply Hne.
  - apply basis_word. exact Hbits.
Qed.

Lemma large_array_once_sampled_byte_matters_witness :
  32 <= 64 /\ (16 < length (repeat x2a 17))%nat
  /\ count_occ Z.eq_dec
       (Hash.sample_positions 64 (Z.of_nat (length (repeat x2a 17))))
       (Z.of_nat 2) = 1%nat
  /\ repeat x2a 17 !! 2%nat = Some x2a /\ x2a <> x2b
  /\ fst <$> Hash.DedupeHashFunc 64 (<[2%nat := x2b]> (repeat x2a 17))
     <> fst <$> Hash.DedupeHashFunc 64 (repeat x2a 17).
Proof.
  assert (H1 : 32 <= 64) by lia.
  assert (H2 : (16 < length (repeat x2a 17))%nat) by (simpl; lia).
  assert (H3 : count_occ Z.eq_dec
                 (Hash.sample_positions 64
                    (Z.of_nat (length (repeat x2a 17))))
                 (Z.of_nat 2) = 1%nat) by (vm_compute; reflexivity).
  assert (H4 : repeat x2a 17 !! 2%nat = Some x2a) by reflexivity.
  assert (H5 : x2a <> x2b) by discriminate.
  repeat (split; [assumption|]).
  exact (large_array_once_sampled_byte_matters 64 (repeat x2a 17) 2 x2a x2b
           H1 H2 H3 H4 H5).
Defined.

(** X6.  A type patch returns what it was constructed with.  For a module
    that is not NULL the constructor succeeds; [GetDexFile],
    [GetReferrerClassDefIdx], [GetReferrerMethodIdx], [GetTargetTypeIdx]
    and [GetLiteralOffset] return the arguments of the constructor, and
    the record answers [IsType() = true] and casts to itself. *)
Theorem type_patch_getters_round_trip {DexFile InvokeType : Type}
    (dex_file : DexFile)
    (referrer_class_def_idx referrer_method_idx target_type_idx
       literal_offset : Z) :
  exists t,
    Patch.new_TypePatchInformation (Some dex_file) referrer_class_def_idx
      referrer_method_idx target_type_idx literal_offset = Ok t
    /\ Patch.GetDexFile (@Patch.TypePatch DexFile InvokeType t)
       = Some dex_file
    /\ Patch.GetReferrerClassDefIdx (@Patch.TypePatch DexFile InvokeType t)
       = referrer_class_def_idx
    /\ Patch.GetReferrerMethodIdx (@Patch.TypePatch DexFile InvokeType t)
       = referrer_method_idx
    /\ Patch.GetTargetTypeIdx t = target_type_idx
    /\ Patch.GetLiteralOffset (@Patch.TypePatch DexFile InvokeType t)
       = literal_offset
    /\ Patch.IsType (@Patch.TypePatch DexFile InvokeType t) = true
    /\ Patch.AsType (@Patch.TypePatch DexFile InvokeType t) = Ok t.
Proof. eexists. split; [reflexivity|]. repeat split. Qed.

Lemma new_PatchInformation_Ok {DexFile : Type} (dex_file : option DexFile)
    c m l p :
  Patch.new_PatchInformation dex_file c m l = Ok p ->
  exists d, dex_file = Some d /\ Patch.dex_file_ p = Some d
            /\ Patch.referrer_class_def_idx_ p = c
            /\ Patch.referrer_method_idx_ p = m
            /\ Patch.literal_offset_ p = l.
Proof.
  unfold Patch.new_PatchInformation. simpl.
  destruct dex_file as [d|]; [|discriminate].
  intros [= <-]. exists d. repeat split.
Qed.

(** X7.  A record that was constructed has a module.  Whenever one of the
    four constructors returns a record, the module it was given is not
    NULL and [GetDexFile] returns it, so [GetDexFile] dereferences no NULL
    pointer on a record a constructor returned. *)
Theorem constructed_patch_has_module {DexFile InvokeType : Type}
    (dex_file : option DexFile) (c m : Z) (ri : InvokeType) (t : Z)
    (ti : InvokeType) (l d : Z) :
  (forall p,
     Patch.new_PatchInformation dex_file c m l = Ok p ->
     exists f, dex_file = Some f
               /\ Patch.GetDexFile (@Patch.BasePatch DexFile InvokeType p)
                  = Some f)
  /\ (forall x,
        Patch.new_CallPatchInformation dex_file c m ri t ti l = Ok x ->
        exists f, dex_file = Some f
                  /\ Patch.GetDexFile (Patch.CallPatch (Patch.PlainCall x))
                     = Some f)
  /\ (forall x,
        Patch.new_RelativeCallPatchInformation dex_file c m ri t ti l d
        = Ok x ->
        exists f, dex_file = Some f
                  /\ Patch.GetDexFile (Patch.CallPatch (Patch.RelativeCall x))
                     = Some f)
  /\ (forall x,
        Patch.new_TypePatchInformation dex_file c m t l = Ok x ->
        exists f, dex_file = Some f
                  /\ Patch.GetDexFile (@Patch.TypePatch DexFile InvokeType x)
                     = Some f).
Proof.
  split; [|split; [|split]].
  - intros p Hp. apply new_PatchInformation_Ok in Hp as (f & -> & Hf & _).
    now exists f.
  - intros x. unfold Patch.new_CallPatchInformation.
    destruct (Patch.new_PatchInformation dex_file c m l) as [p|msg] eqn:Hp;
      simpl; [|discriminate].
    intros [= <-]. apply new_PatchInformation_Ok in Hp as (f & -> & Hf & _).
    now exists f.
  - intros x.
    unfold Patch.new_RelativeCallPatchInformation,
      Patch.new_CallPatchInformation.
    destruct (Patch.new_PatchInformation dex_file c m l) as [p|msg] eqn:Hp;
      simpl; [|discriminate].
    intros [= <-]. apply new_PatchInformation_Ok in Hp as (f & -> & Hf & _).
    now exists f.
  - intros x. unfold Patch.new_TypePatchInformation.
    destruct (Patch.new_PatchInformation dex_file c m l) as [p|msg] eqn:Hp;
      simpl; [|discriminate].
    intros [= <-]. apply new_PatchInformation_Ok in Hp as (f & -> & Hf & _).
    now exists f.
Qed.

Lemma constructed_patch_has_module_witness :
  exists x : @Patch.TypePatchInformation nat,
    Patch.new_TypePatchInformation (Some 7%nat) 1 2 3 8 = Ok x
    /\ exists f, Some 7%nat = Some f
                 /\ Patch.GetDexFile (@Patch.TypePatch nat bool x) = Some f.
Proof.
  eexists. split; [reflexivity|].
  destruct (@constructed_patch_has_module nat bool (Some 7%nat)
              1 2 true 3 false 8 0) as (_ & _ & _ & Htype).
  apply Htype. reflexivity.
Defined.

(** X8.  The casts return the record they are called on, and succeed on
    the records of their variant only.  [AsCall()] returns a call patch
    exactly when the record is that call patch, [AsType()] likewise;
    [IsCall()] and [IsType()] say whether the cast succeeds; and the
    record a cast returns has the module, the referrer and the literal
    offset of the record it was called on. *)
Theorem patch_casts_return_the_record {DexFile InvokeType : Type}
    (o : @Patch.PatchObject DexFile InvokeType) :
  (forall c, Patch.AsCall o = Ok c <-> o = Patch.CallPatch c)
  /\ (forall t, Patch.AsType o = Ok t <-> o = Patch.TypePatch t)
  /\ (Patch.IsCall o = true <-> exists c, Patch.AsCall o = Ok c)
  /\ (Patch.IsType o = true <-> exists t, Patch.AsType o = Ok t)
  /\ (forall c,
        Patch.AsCall o = Ok c ->
        Patch.GetDexFile (Patch.CallPatch c) = Patch.GetDexFile o
        /\ Patch.GetReferrerClassDefIdx (Patch.CallPatch c)
           = Patch.GetReferrerClassDefIdx o
        /\ Patch.GetReferrerMethodIdx (Patch.CallPatch c)
           = Patch.GetReferrerMethodIdx o
        /\ Patch.GetLiteralOffset (Patch.CallPatch c)
           = Patch.GetLiteralOffset o)
  /\ (forall t,
        Patch.AsType o = Ok t ->
        Patch.GetDexFile (@Patch.TypePatch DexFile InvokeType t)
        = Patch.GetDexFile o
        /\ Patch.GetReferrerClassDefIdx
             (@Patch.TypePatch DexFile InvokeType t)
           = Patch.GetReferrerClassDefIdx o
        /\ Patch.GetReferrerMethodIdx
             (@Patch.TypePatch DexFile InvokeType t)
           = Patch.GetReferrerMethodIdx o
        /\ Patch.GetLiteralOffset (@Patch.TypePatch DexFile InvokeType t)
           = Patch.GetLiteralOffset o).
Proof.
  assert (HAsCall : forall c,
             Patch.AsCall o = Ok c <-> o = Patch.CallPatch c)
    by (intros c; destruct o; simpl; split; intros Heq; congruence).
  assert (HAsType : forall t,
             Patch.AsType o = Ok t <-> o = Patch.TypePatch t)
    by (intros t; destruct o; simpl; split; intros Heq; congruence).
  split; [exact HAsCall|]. split; [exact HAsType|].
  split; [|split; [|split]].
  - destruct o; simpl; split; try discriminate; eauto;
      intros [c Hc]; discriminate.
  - destruct o; simpl; split; try discriminate; eauto;
      intros [t Ht]; discriminate.
  - intros c Hc. apply HAsCall in Hc. subst o. repeat split.
  - intros t Ht. apply HAsType in Ht. subst o. repeat split.
Qed.

Lemma patch_casts_return_the_record_witness :
  let c : @Patch.CallObject nat bool :=
    Patch.PlainCall
      {| Patch.call_base :=
           {| Patch.dex_file_ := Some 7%nat;
              Patch.referrer_class_def_idx_ := 1;
              Patch.referrer_method_idx_ := 2;
              Patch.literal_offset_ := 16 |};
         Patch.referrer_invoke_type_ := true;
         Patch.target_method_idx_ := 3;
         Patch.target_invoke_type_ := false |} in
  Patch.AsCall (Patch.CallPatch c) = Ok c
  /\ Patch.GetLiteralOffset (Patch.CallPatch c) = 16.
Proof.
  intros c.
  destruct (patch_casts_return_the_record (Patch.CallPatch c))
    as (HAsCall & _).
  split; [apply HAsCall; reflexivity|reflexivity].
Defined.

(** X9.  A call patch that is not relative reports no displacement:
    [RelativeOffset()] differs from 0 on relative call patches only. *)
Theorem displacement_only_when_relative {DexFile InvokeType : Type}
    (c : @Patch.CallObject DexFile InvokeType) :
  Patch.RelativeOffset c <> 0 ->
  Patch.IsRelative c = true
  /\ exists r, c = Patch.RelativeCall r
               /\ Patch.offset_ r = Patch.RelativeOffset c.
Proof.
  destruct c as [x|r]; simpl; intros Hne; [contradiction|].
  split; [reflexivity|]. now exists r.
Qed.

Lemma displacement_only_when_relative_witness :
  let c : @Patch.CallObject nat bool :=
    Patch.RelativeCall
      {| Patch.relative_base :=
           {| Patch.call_base :=
                {| Patch.dex_file_ := Some 7%nat;
                   Patch.referrer_class_def_idx_ := 1;
                   Patch.referrer_method_idx_ := 2;
                   Patch.literal_offset_ := 16 |};
              Patch.referrer_invoke_type_ := true;
              Patch.target_method_idx_ := 3;
              Patch.target_invoke_type_ := false |};
         Patch.offset_ := -8 |} in
  Patch.RelativeOffset c <> 0 /\ Patch.IsRelative c = true.
Proof.
  intros c.
  assert (Hne : Patch.RelativeOffset c <> 0) by discriminate.
  split; [exact Hne|].
  exact (proj1 (displacement_only_when_relative c Hne)).
Defined.

(** X10.  A [CompilerTls] starts with no LLVM info, and [GetLLVMInfo]
    returns what the last [SetLLVMInfo] stored: after any sequence of
    [SetLLVMInfo] calls it is the value of the last call, and the value
    before the calls when there was none. *)
Theorem tls_last_set_wins {LLVMInfo : Type}
    (values : list (option LLVMInfo)) (this : @Tls.CompilerTls LLVMInfo) :
  Tls.GetLLVMInfo (@Tls.new_CompilerTls LLVMInfo) = None
  /\ Tls.GetLLVMInfo (foldl (fun t v => Tls.SetLLVMInfo v t) this values)
     = default (Tls.GetLLVMInfo this) (last values).
Proof.
  split; [reflexivity|].
  revert this. induction values as [|v values IH]; intros this; simpl;
    [reflexivity|].
  rewrite IH, last_cons. simpl. now destruct (last values).
Qed.

(** X11.  The two setters of the driver touch their own member only.
    After any sequence of [SetSupportBootImageFixup] and
    [SetCompilerContext] calls, [GetSupportBootImageFixup] returns the
    value of the last [SetSupportBootImageFixup] call and
    [GetCompilerContext] that of the last [SetCompilerContext] call (the
    value before the calls when there was none), and every other accessor
    returns what it returned before. *)
Theorem driver_setters_touch_own_member
    {VerificationResults DexFileToMethodInlinerMap CompilerBackend
       InstructionSet InstructionSetFeatures CompilerContext : Type}
    (calls : list (@Driver.SetterCall CompilerContext))
    (this : @Driver.CompilerDriver VerificationResults
              DexFileToMethodInlinerMap CompilerBackend InstructionSet
              InstructionSetFeatures CompilerContext) :
  Driver.fixed_part (Driver.call_all calls this) = Driver.fixed_part this
  /\ Driver.GetSupportBootImageFixup (Driver.call_all calls this)
     = default (Driver.GetSupportBootImageFixup this)
         (last (Driver.fixup_values calls))
  /\ Driver.GetCompilerContext (Driver.call_all calls this)
     = default (Driver.GetCompilerContext this)
         (last (Driver.context_values calls)).
Proof.
  unfold Driver.call_all. revert this.
  induction calls as [|c calls IH]; intros this; simpl;
    [repeat split|].
  destruct (IH (Driver.call c this)) as (Hfixed & Hfixup & Hcontext).
  rewrite Hfixed, Hfixup, Hcontext.
  destruct c as [b|ctx]; simpl; (split; [reflexivity|]);
    rewrite ?last_cons; split;
    try reflexivity;
    match goal with
    | |- context [last ?l] => now destruct (last l)
    end.
Qed.

Lemma fold_positions_gather (bits : Z) (array : list byte) (l : list Z) :
  forall h,
    Hash.fold_positions bits array l h
    = fold_left (fun h b => Hash.fnv_step bits h (byte_val b))
        (map (fun p => nth (Z.to_nat p) array x00) l) h.
Proof.
  unfold Hash.fold_positions.
  induction l as [|p l IH]; intros h; simpl; [reflexivity|]. apply IH.
Qed.

(** X12.  A large array hashes as its sample: the hash of an array of more
    than sixteen bytes is the hash of the sixteen-byte array made of the
    bytes at its sampled positions, in the order they are read. *)
Theorem large_array_hashes_as_its_sample (bits : Z) (array : list byte) :
  32 <= bits -> (16 < length array)%nat ->
  length (Hash.sampled_bytes bits array) = 16%nat
  /\ fst <$> Hash.DedupeHashFunc bits array
     = fst <$> Hash.DedupeHashFunc bits (Hash.sampled_bytes bits array).
Proof.
  intros Hbits Hlen.
  assert (Hsample : length (Hash.sampled_bytes bits array) = 16%nat)
    by (unfold Hash.sampled_bytes; rewrite length_map; reflexivity).
  split; [exact Hsample|].
  rewrite (operator_call_large bits Hbits array Hlen).
  rewrite (operator_call_small bits Hbits (Hash.sampled_bytes bits array))
    by lia.
  change (Some (Hash.hash_sampled bits array)
          = Some (Hash.hash_every_byte bits (Hash.sampled_bytes bits array))).
  apply (f_equal Some). rewrite hash_every_byte_fold.
  unfold Hash.hash_sampled, Hash.sampled_bytes.
  apply (f_equal (Hash.final_mix bits)).
  apply fold_positions_gather.
Qed.

Lemma large_array_hashes_as_its_sample_witness :
  32 <= 64 /\ (16 < length (repeat x2a 20))%nat
  /\ fst <$> Hash.DedupeHashFunc 64 (repeat x2a 20)
     = fst <$> Hash.DedupeHashFunc 64 (repeat x2a 16).
Proof.
  assert (H1 : 32 <= 64) by lia.
  assert (H2 : (16 < length (repeat x2a 20))%nat) by (simpl; lia).
  split; [exact H1|]. split; [exact H2|].
  exact (proj2 (large_array_hashes_as_its_sample 64 (repeat x2a 20) H1 H2)).
Defined.
